(** * Climate Emoji: the data pipeline of [climate_emoji.py]

    A shallow embedding of the reshaping step of [load_nasa_data], of the
    helper functions [get_earth_mood], [get_mood_color] and [calc_trend],
    of the derived columns and summary values of the "Prepare Data"
    block, and of the two sidebar filters, followed by the properties the
    specification states about them.

    Numbers.  The anomalies are Python floats.  They are embedded as
    rationals ([Q]): every finite float is a rational, the threshold
    constants 1.5, 0.5 and 0 are exactly representable, and [dropna]
    removes NaN before any helper sees a value, so the comparisons of
    [get_earth_mood] and the date filters behave on [Q] as they do on the
    floats of the data frame.  The sums, means and least-squares fits
    are embedded in exact arithmetic: the program computes them in
    float64 and agrees with the model up to rounding only, so an
    equation about such a value below is one of exact arithmetic, and
    nothing is concluded from the sign of a value that is zero in
    exact arithmetic. *)

From Stdlib Require Import QArith Qfield Lqa ZArith Lia.
From stdpp Require Import base option list strings gmap sorting.

(** ** Timestamps *)

Module Dates.

(** A [pd.Timestamp] at midnight, as its calendar fields. *)
Record Timestamp := mk_ts { ts_year : Z; ts_month : Z; ts_day : Z }.

#[global] Instance Timestamp_eq_dec : EqDecision Timestamp.
Proof. solve_decision. Defined.

(** Chronological order on calendar fields. *)
Definition ts_lt (a b : Timestamp) : Prop :=
  (ts_year a < ts_year b
   ∨ (ts_year a = ts_year b
      ∧ (ts_month a < ts_month b
         ∨ (ts_month a = ts_month b ∧ ts_day a < ts_day b))))%Z.

Definition ts_le (a b : Timestamp) : Prop := ts_lt a b ∨ a = b.

#[global] Instance ts_lt_dec : RelDecision ts_lt.
Proof. intros a b. unfold ts_lt. apply _. Defined.

#[global] Instance ts_le_dec : RelDecision ts_le.
Proof. intros a b. unfold ts_le. apply _. Defined.

(** The first days of a month that a nanosecond timestamp can hold:
    [Timestamp.min] is 1677-09-21 and [Timestamp.max] is 2262-04-11. *)
Definition in_ns_bounds (year month : Z) : Prop :=
  (1677 < year < 2262
   ∨ (year = 1677 ∧ 10 ≤ month)
   ∨ (year = 2262 ∧ month ≤ 4))%Z.

#[global] Instance in_ns_bounds_dec year month : Decision (in_ns_bounds year month).
Proof. unfold in_ns_bounds. apply _. Defined.

(** [pd.to_datetime(str(year) + "-" + str(month) + "-01")]: the first
    day of the month, for a month number from 1 to 12.  [None] is the
    [OutOfBoundsDatetime] (or the parse error of a year that is not
    written with four digits) pandas raises outside the bounds. *)
Definition to_datetime (year month : Z) : option Timestamp :=
  if decide (in_ns_bounds year month) then Some (mk_ts year month 1) else None.

End Dates.
Export Dates.

(** ** The wide table and its reshaping *)

Module Loader.

(** One row of the parsed CSV: the [Year] column and the remaining
    cells in column order.  A cell is [None] when it was the
    ["*******"] marker or failed [pd.to_numeric(errors="coerce")]. *)
Record RawRow := mk_row { row_year : Z; row_cells : list (option Q) }.

(** The data frame [df] of [load_nasa_data] after line 49:
    [value_columns] are the names of [df.columns[1:]]. *)
Record RawTable := mk_table {
  value_columns : list string;
  table_rows : list RawRow
}.

(** A data frame is rectangular: a cell that a short row does not
    have reads as missing, as [read_csv] pads it. *)
Definition cell (r : RawRow) (j : nat) : option Q := mjoin (row_cells r !! j).

(** [df.melt(id_vars=["Year"], var_name="Month", value_name="Anomaly")]:
    column after column, and inside a column row after row. *)
Definition melt (t : RawTable) : list (Z * string * option Q) :=
  mjoin (imap (λ j c, (λ r, (row_year r, c, cell r j)) <$> table_rows t)
              (value_columns t)).

(** [.dropna()]: only [Anomaly] can be missing. *)
Definition dropna (l : list (Z * string * option Q)) : list (Z * string * Q) :=
  omap (λ x, (λ a, (x.1.1, x.1.2, a)) <$> x.2) l.

Definition month_map : gmap string Z :=
  list_to_map
    [("Jan", 1); ("Feb", 2); ("Mar", 3); ("Apr", 4); ("May", 5); ("Jun", 6);
     ("Jul", 7); ("Aug", 8); ("Sep", 9); ("Oct", 10); ("Nov", 11); ("Dec", 12)]%Z.

(** A row of [df_long] once it has its [Date] column. *)
Record Row := mk_obs {
  Year : Z;
  Month : string;
  Anomaly : Q;
  Date : Timestamp
}.

(** [df_long[df_long["Month"].isin(month_map.keys())]] *)
Definition isin_months (l : list (Z * string * Q)) : list (Z * string * Q) :=
  filter (λ x, is_Some (month_map !! x.1.2)) l.

(** Lines 55-58.  [Series.map] sends a label outside the dictionary to
    NaN, whose string does not parse as a date: [None] is that error,
    or the error of [to_datetime]. *)
Definition with_date (x : Z * string * Q) : option Row :=
  k ← month_map !! x.1.2;
  d ← to_datetime x.1.1 k;
  Some (mk_obs x.1.1 x.1.2 x.2 d).

(** [df_long.sort_values("Date")].  pandas does not promise an order
    between rows of equal date; merge sort fixes one. *)
Definition sort_values_Date (l : list Row) : list Row :=
  merge_sort (λ a b, ts_le (Date a) (Date b)) l.

(** Lines 51-60 of [load_nasa_data], from the parsed table on. *)
Definition load_nasa_data (t : RawTable) : option (list Row) :=
  sort_values_Date <$> mapM with_date (isin_months (dropna (melt t))).

End Loader.
Export Loader.

(** ** Helper functions and derived statistics *)

Module Analytics.

Definition get_earth_mood (a : Q) : string :=
  if Qle_bool (3#2) a then "Hot 🔥"
  else if Qle_bool (1#2) a then "Warm 🌱"
  else if Qle_bool 0 a then "Stable 🙂"
  else "Cold ❄️".

Definition mood_colors : gmap string string :=
  list_to_map
    [("Hot 🔥", "#FF4444"); ("Warm 🌱", "#FF8800");
     ("Stable 🙂", "#44AA44"); ("Cold ❄️", "#4488FF")].

Definition get_mood_color (mood : string) : string :=
  default "#999" (mood_colors !! mood).

(** A row of [df] after the "Prepare Data" block added its columns. *)
Record Obs := mk_prow {
  base : Row;
  Mood : string;
  Mood_Color : string;
  Rolling10yr : option Q
}.

(** [DataFrame.tail(n)]: nothing for [n = 0], [iloc[-n:]] otherwise,
    which for a negative [n] drops the first [-n] rows. *)
Definition tail {A} (n : Z) (l : list A) : list A :=
  if (n =? 0)%Z then []
  else if (0 <? n)%Z then drop (length l - Z.to_nat n) l
  else drop (Z.to_nat (- n)) l.

Definition Qsum (l : list Q) : Q := foldr Qplus 0%Q l.

Definition Qnat (n : nat) : Q := inject_Z (Z.of_nat n).

(** [np.arange(n)] as floats *)
Definition arange (n : nat) : list Q := Qnat <$> seq 0 n.

(** [np.polyfit(x, y, 1)]: [(slope, intercept)], highest degree first,
    in exact arithmetic (numpy solves the problem in float64, so the
    program has these values up to rounding only).
    [None] is an exception.  With at least two distinct abscissae it
    is the solution of the normal equations.  When all abscissae are
    one value [x0], the matrix has rank one and numpy, after scaling
    the columns to unit norm, returns the least-squares solution of
    minimum norm, [mean(y)/(2*x0)] and [mean(y)/2]; for [x0 = 0] the
    scaling divides by zero and no fit is produced. *)
Definition polyfit1 (xs ys : list Q) : option (Q * Q) :=
  if bool_decide (length xs = 0) then None
  else if bool_decide (length xs ≠ length ys) then None
  else
    let n := Qnat (length xs) in
    let sx := Qsum xs in
    let sy := Qsum ys in
    let sxx := Qsum (zip_with Qmult xs xs) in
    let sxy := Qsum (zip_with Qmult xs ys) in
    let d := (n * sxx - sx * sx)%Q in
    if Qeq_bool d 0 then
      match xs with
      | x0 :: _ =>
          if Qeq_bool x0 0 then None
          else Some (sy / n / (2 * x0), sy / n / 2)%Q
      | [] => None
      end
    else
      let m := ((n * sxy - sx * sy) / d)%Q in
      Some (m, (sy - m * sx) / n)%Q.

(** [np.polyval(p, t)] for a polynomial of degree one *)
Definition polyval1 (p : Q * Q) (t : Q) : Q := (p.1 * t + p.2)%Q.

Definition calc_trend (data : list Obs) (years : Z) : option Q :=
  let recent := tail (years * 12) data in
  if bool_decide (length recent < 2) then Some 0%Q
  else
    let x := arange (length recent) in
    let y := (Anomaly ∘ base) <$> recent in
    p ← polyfit1 x y; Some (p.1 * 12)%Q.

(** [Series.rolling(window, min_periods).mean()] on a column without
    NaN, for [0 < min_periods <= window]: position [i] sees the last
    [window] values up to and including [i]. *)
Definition rolling_mean (window min_periods : nat) (l : list Q)
  : list (option Q) :=
  imap (λ i _,
          let w := tail (Z.of_nat window) (take (S i) l) in
          if bool_decide (min_periods ≤ length w)
          then Some (Qsum w / Qnat (length w))%Q
          else None) l.

Section Correlation.
(** The square root of the floats, which [Q] does not have. *)
Variable sqrtQ : Q → Q.

(** [Series.corr] (Pearson), in exact arithmetic.  [None] is the NaN
    pandas returns when a column has no spread or there are fewer than
    two rows.  In float64 a constant column whose mean is not exact has
    a spread of rounding size, and pandas then returns a number where
    this model has NaN; the years, being integers, have no such
    rounding. *)
Definition corr (xs ys : list Q) : option Q :=
  let n := Qnat (length xs) in
  let sx := Qsum xs in
  let sy := Qsum ys in
  let vx := (n * Qsum (zip_with Qmult xs xs) - sx * sx)%Q in
  let vy := (n * Qsum (zip_with Qmult ys ys) - sy * sy)%Q in
  let cxy := (n * Qsum (zip_with Qmult xs ys) - sx * sy)%Q in
  if Qeq_bool (vx * vy) 0 then None
  else Some (cxy / sqrtQ (vx * vy))%Q.
End Correlation.

End Analytics.
Export Analytics.

(** ** The script: derived columns, summary values, filters *)

Module Dashboard.

(** Lines 87-89. *)
Definition prepare (df : list Row) : list Obs :=
  zip_with
    (λ r ro, mk_prow r (get_earth_mood (Anomaly r))
                     (get_mood_color (get_earth_mood (Anomaly r))) ro)
    df (rolling_mean 120 30 (Anomaly <$> df)).

(** What the sidebar hands to the script: the two ends of the date
    range, through [pd.to_datetime], and the selected moods. *)
Record FilterState := mk_fs {
  fs_start : Timestamp;
  fs_end : Timestamp;
  mood_filter : list string
}.

Definition col_Date (r : Obs) : Timestamp := Date (base r).
Definition col_Year (r : Obs) : Q := inject_Z (Year (base r)).
Definition col_Anomaly (r : Obs) : Q := Anomaly (base r).

(** Lines 105-106 and 112. *)
Definition filtered (df : list Obs) (fs : FilterState) : list Obs :=
  let mask r := ts_le (fs_start fs) (col_Date r) ∧ ts_le (col_Date r) (fs_end fs) in
  filter (λ r, Mood r ∈ mood_filter fs) (filter mask df).

Record TrendSummary := mk_summary {
  trend_10 : Q;
  corr_year_anomaly : option Q;
  pred_2030 : Q;
  pred_2050 : Q
}.

Record View := mk_view {
  v_df : list Obs;
  v_latest : Obs;
  v_summary : TrendSummary;
  v_filtered : list Obs
}.

(** [np.polyval(np.polyfit(df["Year"], df["Anomaly"], 1), target)] *)
Definition linear_prediction (df : list Obs) (target : Q) : option Q :=
  p ← polyfit1 (col_Year <$> df) (col_Anomaly <$> df);
  Some (polyval1 p target).

(** Line 102, [start, end = ...]: unpacking a tuple that does not have
    exactly two entries raises [ValueError]. *)
Definition unpack_range (picked : list Timestamp)
  : option (Timestamp * Timestamp) :=
  match picked with
  | [start; end_] => Some (start, end_)
  | _ => None
  end.

Section Script.
Variable sqrtQ : Q → Q.

(** Lines 91-95, on the prepared frame. *)
Definition summary (df : list Obs) : option TrendSummary :=
  t ← calc_trend df 10;
  let c := corr sqrtQ (col_Year <$> df) (col_Anomaly <$> df) in
  p30 ← linear_prediction df 2030;
  p50 ← linear_prediction df 2050;
  Some (mk_summary t c p30 p50).

(** Lines 62-112 in order, except the unpacking of line 102: the two
    ends of the date range arrive unpacked in the filter state.
    [None]: an exception ended the run. *)
Definition script (raw : RawTable) (fs : FilterState) : option View :=
  df0 ← load_nasa_data raw;
  let df := prepare df0 in
  latest ← last df;
  s ← summary df;
  Some (mk_view df latest s (filtered df fs)).

(** Lines 62-112 in order with line 102: [picked] is the tuple of dates
    the date input returns, which in range mode has no, one or two
    dates, and [moods] the selection of the multiselect. *)
Definition run (raw : RawTable) (picked : list Timestamp)
    (moods : list string) : option View :=
  df0 ← load_nasa_data raw;
  let df := prepare df0 in
  latest ← last df;
  s ← summary df;
  range ← unpack_range picked;
  Some (mk_view df latest s (filtered df (mk_fs range.1 range.2 moods))).
End Script.

End Dashboard.
Export Dashboard.

(** ** The sidebar defaults, the charts and the year comparison *)

Module Charts.

(** Lines 110-111: the options of the mood multiselect, which are also
    its default selection. *)
Definition mood_options : list string :=
  ["Hot 🔥"; "Warm 🌱"; "Stable 🙂"; "Cold ❄️"].

Definition ts_min (a b : Timestamp) : Timestamp :=
  if decide (ts_le a b) then a else b.

Definition ts_max (a b : Timestamp) : Timestamp :=
  if decide (ts_le a b) then b else a.

(** Line 101: [df["Date"].min()] and [df["Date"].max()]; [None] is the
    NaT of an empty frame. *)
Definition min_date (df : list Obs) : option Timestamp :=
  match df with
  | [] => None
  | r :: rs => Some (foldr (λ x m, ts_min (col_Date x) m) (col_Date r) rs)
  end.

Definition max_date (df : list Obs) : option Timestamp :=
  match df with
  | [] => None
  | r :: rs => Some (foldr (λ x m, ts_max (col_Date x) m) (col_Date r) rs)
  end.

(** Lines 102-111 before the user touches a control: the date input
    starts at [(min_date, max_date)] and every mood is selected. *)
Definition default_filter (df : list Obs) : option FilterState :=
  lo ← min_date df; hi ← max_date df; Some (mk_fs lo hi mood_options).

(** One marker trace of the time-series chart. *)
Record Trace := mk_trace {
  trace_name : string;
  trace_color : string;
  trace_rows : list Obs
}.

(** Lines 156-162: one marker trace per selected mood that has rows in
    the filtered view. *)
Definition mood_traces (flt : list Obs) (moods : list string) : list Trace :=
  omap (λ mood,
          match filter (λ r, Mood r = mood) flt with
          | [] => None
          | mood_data => Some (mk_trace mood (get_mood_color mood) mood_data)
          end) moods.

(** The order of [value_counts]: the larger count first. *)
Definition count_ge (a b : string * nat) : Prop := b.2 ≤ a.2.

#[global] Instance count_ge_dec : RelDecision count_ge.
Proof. intros a b. unfold count_ge. apply _. Defined.

(** [Series.value_counts()]: each value that occurs with the number of
    its occurrences, the largest count first.  pandas does not promise
    an order between equal counts; merge sort fixes one. *)
Definition value_counts (l : list string) : list (string * nat) :=
  merge_sort count_ge
             ((λ v, (v, length (filter (λ x, x = v) l))) <$> remove_dups l).

(** Line 259. *)
Definition mood_counts (flt : list Obs) : list (string * nat) :=
  value_counts (Mood <$> flt).

(** [Series.mean()] in exact arithmetic (pandas divides a float64 sum
    by the count, which agrees up to rounding); [None] is the NaN of an
    empty selection. *)
Definition series_mean (l : list Q) : option Q :=
  match l with
  | [] => None
  | _ => Some (Qsum l / Qnat (length l))%Q
  end.

Definition year_mean (df : list Obs) (year : Z) : option Q :=
  series_mean (col_Anomaly <$> filter (λ r, Year (base r) = year) df).

(** Lines 180-184: the two means and their difference, which the
    sentence of the comparison shows; [None] when the guard fails and
    nothing is shown.  Under the guard both selections have rows, so
    the inner [None] is never taken. *)
Definition compare_years (df : list Obs) (year1 year2 : Z)
  : option (Q * Q * Q) :=
  if decide (year1 ∈ (Year ∘ base) <$> df ∧ year2 ∈ (Year ∘ base) <$> df)
  then
    a1 ← year_mean df year1;
    a2 ← year_mean df year2;
    Some (a1, a2, a2 - a1)%Q
  else None.

#[global] Instance Qle_decision : RelDecision Qle.
Proof.
  intros x y. destruct (Qlt_le_dec y x) as [H|H].
  - right. by apply Qlt_not_le.
  - left. exact H.
Defined.

(** [np.linspace(start, stop, num)] with the end point included. *)
Definition linspace (start stop : Q) (num : nat) : list Q :=
  match num with
  | 0 => []
  | 1 => [start]
  | _ =>
      let step := ((stop - start) / Qnat (num - 1))%Q in
      (λ i, if decide (i = num - 1) then stop
            else (Qnat i * step + start)%Q) <$> seq 0 num
  end.

(** Lines 212-213: the two coordinates of the overlay of the histogram. *)
Definition x_sorted (flt : list Obs) : list Q :=
  merge_sort Qle (col_Anomaly <$> flt).

Definition y_density (flt : list Obs) : list Q :=
  linspace 0 (Qnat (length flt) / (55#10))%Q (length (x_sorted flt)).

(** Line 132: the caption under the trend metric. *)
Definition trend_caption (trend_10 : Q) : string :=
  if negb (Qle_bool trend_10 0) then "Warming" else "Cooling".

End Charts.
Export Charts.

(** ** Notions of the specification *)

Module Notions.

(** *** Moods *)

(** The four labels of the specification, their texts, their bands
    (§4.3) and their order from cold to hot. *)
Inductive MoodLabel := Hot | Warm | Stable | Cold.

Definition label_text (m : MoodLabel) : string :=
  match m with
  | Hot => "Hot 🔥"
  | Warm => "Warm 🌱"
  | Stable => "Stable 🙂"
  | Cold => "Cold ❄️"
  end.

Definition in_band (m : MoodLabel) (a : Q) : Prop :=
  match m with
  | Hot => (3#2 <= a)%Q
  | Warm => (1#2 <= a ∧ a < 3#2)%Q
  | Stable => (0 <= a ∧ a < 1#2)%Q
  | Cold => (a < 0)%Q
  end.

Definition mood_rank (m : MoodLabel) : nat :=
  match m with Cold => 0 | Stable => 1 | Warm => 2 | Hot => 3 end.

(** *** Filters *)

(** The order of the frame by its [Date] column. *)
Definition by_date (a b : Obs) : Prop := ts_le (col_Date a) (col_Date b).

(** The two conditions of the mask and of the mood selection. *)
Definition selected (fs : FilterState) (r : Obs) : Prop :=
  ts_le (fs_start fs) (col_Date r) ∧ ts_le (col_Date r) (fs_end fs)
  ∧ Mood r ∈ mood_filter fs.

(** *** Least squares *)

Section Fit.
Local Open Scope Q_scope.

(** The residual of the line [m*x + b] at a point. *)
Definition residual (m b x y : Q) : Q := y - (m * x + b).

(** Sum of squared residuals, the quantity least squares minimises. *)
Definition sse (xs ys : list Q) (m b : Q) : Q :=
  Qsum (zip_with (λ x y, residual m b x y * residual m b x y) xs ys).

(** The ordinary-least-squares line, in the words of the
    specification: no line has a smaller sum of squared residuals. *)
Definition least_squares_line (xs ys : list Q) (m b : Q) : Prop :=
  ∀ m' b', sse xs ys m b <= sse xs ys m' b'.

(** How far the line [m', b'] is from the line [m, b] at [x]. *)
Definition shift (m b m' b' x : Q) : Q := (m' - m) * x + (b' - b).

(** The determinant of the normal equations, [n * Σx² - (Σx)²]. *)
Definition spread (xs : list Q) : Q :=
  Qnat (length xs) * Qsum (zip_with Qmult xs xs) - Qsum xs * Qsum xs.

End Fit.

(** *** Tables and long frames *)

(** The twelve calendar abbreviations, January first. *)
Definition months : list string :=
  ["Jan"; "Feb"; "Mar"; "Apr"; "May"; "Jun";
   "Jul"; "Aug"; "Sep"; "Oct"; "Nov"; "Dec"].

(** The row [with_date] builds when the label is a month. *)
Definition dated (x : Z * string * Q) : Row :=
  mk_obs x.1.1 x.1.2 x.2 (mk_ts x.1.1 (default 0%Z (month_map !! x.1.2)) 1).

(** The long frame before it is sorted. *)
Definition long_rows (t : RawTable) : list Row :=
  dated <$> isin_months (dropna (melt t)).

(** Every value in a month column has a date that a nanosecond
    timestamp can hold. *)
Definition dates_in_bounds (t : RawTable) : Prop :=
  ∀ row j c i v,
    row ∈ table_rows t → value_columns t !! j = Some c →
    months !! i = Some c → cell row j = Some v →
    in_ns_bounds (row_year row) (Z.of_nat (S i)).

(** Years whose twelve months all fit a nanosecond timestamp. *)
Definition years_in_range (t : RawTable) : Prop :=
  Forall (λ row, (1678 ≤ row_year row ≤ 2261)%Z) (table_rows t).

(** A table keyed by year: no two rows for one year, and no two
    columns of one name (as [read_csv] delivers them). *)
Definition keyed_by_year (t : RawTable) : Prop :=
  NoDup (row_year <$> table_rows t) ∧ NoDup (value_columns t).

(** Ascending by date, and strictly so. *)
Definition row_le (a b : Row) : Prop := ts_le (Date a) (Date b).

Definition row_lt (a b : Row) : Prop := ts_lt (Date a) (Date b).

(** The non-missing cells a table has for a year and a column name. *)
Definition cells_at (t : RawTable) (y : Z) (m : string) : list Q :=
  mjoin (imap (λ j c,
                 if decide (c = m)
                 then omap (λ r, if decide (row_year r = y)
                                 then cell r j else None) (table_rows t)
                 else [])
              (value_columns t)).

(** Every year of the table has, for each of the twelve months,
    exactly one non-missing cell. *)
Definition one_cell_per_month (t : RawTable) : Prop :=
  ∀ row c, row ∈ table_rows t → c ∈ months →
           ∃ v, cells_at t (row_year row) c = [v].

(** The way back from the long frame, in the words of the
    specification (§8): grouping by (year, month).  The group of a pair
    holds the anomalies of the rows with that year and that month. *)
Definition group_by_year_month (df : list Row) (y : Z) (m : string) : list Q :=
  Anomaly <$> filter (λ r, Year r = y ∧ Month r = m) df.

(** The group of a (year, month) pair after the steps of
    [load_nasa_data] that precede the sort. *)
Definition group_of_melted (y : Z) (m : string)
    (M : list (Z * string * option Q)) : list Q :=
  group_by_year_month (dated <$> isin_months (dropna M)) y m.

End Notions.
Export Notions.

(** ** Further notions *)

Module MoreNotions.

(** The colour the script gives each label. *)
Definition label_color (m : MoodLabel) : string :=
  match m with
  | Hot => "#FF4444"
  | Warm => "#FF8800"
  | Stable => "#44AA44"
  | Cold => "#4488FF"
  end.

(** The values a rolling window of 120 sees at position [i]. *)
Definition window_at (l : list Q) (i : nat) : list Q :=
  drop (S i - 120) (take (S i) l).

(** What [corr] takes the square root of. *)
Definition corr_radicand (xs ys : list Q) : Q :=
  let n := Qnat (length xs) in
  ((n * Qsum (zip_with Qmult xs xs) - Qsum xs * Qsum xs)
   * (n * Qsum (zip_with Qmult ys ys) - Qsum ys * Qsum ys))%Q.

(** The square root is right at one argument. *)
Definition sqrt_at (sqrtQ : Q → Q) (q : Q) : Prop :=
  (0 <= sqrtQ q ∧ sqrtQ q * sqrtQ q == q)%Q.

(** The entries of a list with a given key. *)
Definition with_key {A K : Type} `{EqDecision K} (key : A → K)
    (l : list A) (k : K) : list A :=
  filter (λ a, key a = k) l.

End MoreNotions.
Export MoreNotions.

(** ** Sample data *)

Module Samples.

(** The table of §8: years 2000 to 2002, January at 0.1, 0.2 and 0.3,
    every other month missing. *)
Definition jan_table : RawTable :=
  mk_table
    ["Jan"; "Feb"; "Mar"; "Apr"; "May"; "Jun";
     "Jul"; "Aug"; "Sep"; "Oct"; "Nov"; "Dec"]
    [mk_row 2000 [Some (1#10)]; mk_row 2001 [Some (2#10)];
     mk_row 2002 [Some (3#10)]].

Definition jan_rows : list Row :=
  [mk_obs 2000 "Jan" (1#10) (mk_ts 2000 1 1);
   mk_obs 2001 "Jan" (2#10) (mk_ts 2001 1 1);
   mk_obs 2002 "Jan" (3#10) (mk_ts 2002 1 1)].

Definition jan_df : list Obs := prepare jan_rows.

(** One year with a value in each month, and two aggregate columns. *)
Definition year_row : RawRow :=
  mk_row 2000
    [Some (1#10); Some (2#10); Some (3#10); Some (4#10); Some (5#10);
     Some (6#10); Some (7#10); Some (8#10); Some (9#10); Some (10#10);
     Some (11#10); Some (12#10); Some (65#100); None].

Definition year_table : RawTable :=
  mk_table
    ["Jan"; "Feb"; "Mar"; "Apr"; "May"; "Jun";
     "Jul"; "Aug"; "Sep"; "Oct"; "Nov"; "Dec"; "J-D"; "DJF"]
    [year_row].

(** A table keyed by year, complete in every month, of the year 3000. *)
Definition far_row : RawRow :=
  mk_row 3000
    [Some (1#10); Some (2#10); Some (3#10); Some (4#10); Some (5#10);
     Some (6#10); Some (7#10); Some (8#10); Some (9#10); Some (10#10);
     Some (11#10); Some (12#10)].

Definition far_table : RawTable :=
  mk_table
    ["Jan"; "Feb"; "Mar"; "Apr"; "May"; "Jun";
     "Jul"; "Aug"; "Sep"; "Oct"; "Nov"; "Dec"]
    [far_row].

End Samples.
Export Samples.

(** ** The mood bands *)

Module MoodSpec.

Lemma label_text_inj m1 m2 : label_text m1 = label_text m2 → m1 = m2.
Proof. destruct m1, m2; simpl; intros H; first [reflexivity | discriminate H]. Qed.

Lemma Qle_bool_false (x y : Q) : Qle_bool x y = false → (y < x)%Q.
Proof.
  intros H. apply Qnot_le_lt. intros Hle.
  apply Qle_bool_iff in Hle. congruence.
Qed.

(** The cascade of [get_earth_mood], read as a case analysis. *)
Lemma get_earth_mood_cases (a : Q) :
  (get_earth_mood a = label_text Hot ∧ in_band Hot a)
  ∨ (get_earth_mood a = label_text Warm ∧ in_band Warm a)
  ∨ (get_earth_mood a = label_text Stable ∧ in_band Stable a)
  ∨ (get_earth_mood a = label_text Cold ∧ in_band Cold a).
Proof.
  unfold get_earth_mood, in_band, label_text.
  destruct (Qle_bool (3#2) a) eqn:H1.
  { left. split; [reflexivity | by apply Qle_bool_iff]. }
  apply Qle_bool_false in H1.
  destruct (Qle_bool (1#2) a) eqn:H2.
  { right; left. apply Qle_bool_iff in H2. done. }
  apply Qle_bool_false in H2.
  destruct (Qle_bool 0 a) eqn:H3.
  { right; right; left. apply Qle_bool_iff in H3. done. }
  apply Qle_bool_false in H3. by right; right; right.
Qed.

Lemma bands_disjoint m1 m2 (a : Q) : in_band m1 a → in_band m2 a → m1 = m2.
Proof. destruct m1, m2; simpl; intros; first [reflexivity | exfalso; lra]. Qed.

Lemma get_earth_mood_band (a : Q) m :
  get_earth_mood a = label_text m ↔ in_band m a.
Proof.
  split; intros H.
  - destruct (get_earth_mood_cases a) as [[E B]|[[E B]|[[E B]|[E B]]]];
      rewrite E in H; apply label_text_inj in H; by subst.
  - destruct (get_earth_mood_cases a) as [[E B]|[[E B]|[[E B]|[E B]]]];
      by rewrite (bands_disjoint _ _ _ H B).
Qed.

(** C1. For every anomaly [a], [get_earth_mood a] is the text of
    exactly one of the four labels; exactly one of the four bands
    contains [a] (no gap, no overlap), and the label returned is the
    one of that band; the boundaries are inclusive as listed:
    1.6 is Hot, 0.5 is Warm, 0.0 is Stable and -0.01 is Cold. *)
Theorem mood_partition (a : Q) :
  (∃ m, get_earth_mood a = label_text m
        ∧ ∀ m', get_earth_mood a = label_text m' → m' = m)
  ∧ (∃ m, in_band m a ∧ ∀ m', in_band m' a → m' = m)
  ∧ (∀ m, get_earth_mood a = label_text m ↔ in_band m a)
  ∧ get_earth_mood (16#10) = label_text Hot
  ∧ get_earth_mood (5#10) = label_text Warm
  ∧ get_earth_mood 0 = label_text Stable
  ∧ get_earth_mood (-1#100) = label_text Cold.
Proof.
  split_and!; try reflexivity.
  - destruct (get_earth_mood_cases a) as [[E B]|[[E B]|[[E B]|[E B]]]];
      eexists; (split; [exact E|]); intros m' E';
      rewrite E in E'; by apply label_text_inj in E'.
  - destruct (get_earth_mood_cases a) as [[E B]|[[E B]|[[E B]|[E B]]]];
      eexists; (split; [exact B|]); intros m' B';
      exact (bands_disjoint _ _ _ B' B).
  - intros m. apply get_earth_mood_band.
Qed.

(** C9. [get_earth_mood] is monotone: for anomalies [a <= b] the label
    of [a] is at most the label of [b] in the order
    Cold <= Stable <= Warm <= Hot. *)
Theorem mood_monotone (a b : Q) ma mb :
  (a <= b)%Q →
  get_earth_mood a = label_text ma →
  get_earth_mood b = label_text mb →
  mood_rank ma ≤ mood_rank mb.
Proof.
  intros Hab Ha Hb.
  apply get_earth_mood_band in Ha, Hb.
  destruct ma, mb; simpl in *; first [lia | exfalso; lra].
Qed.

Lemma mood_monotone_witness :
  mood_rank Stable ≤ mood_rank Hot.
Proof.
  apply (mood_monotone (1#4) (16#10) Stable Hot);
    [unfold Qle; simpl; lia | reflexivity | reflexivity].
Defined.

End MoodSpec.

(** ** The rolling mean *)

Module RollingSpec.

Lemma length_tail_le {A} (n : Z) (l : list A) : length (tail n l) ≤ length l.
Proof.
  unfold tail. destruct (n =? 0)%Z; [simpl; lia|].
  destruct (0 <? n)%Z; rewrite length_drop; lia.
Qed.

Lemma length_rolling_mean w mp (l : list Q) :
  length (rolling_mean w mp l) = length l.
Proof. unfold rolling_mean. apply length_imap. Qed.

(** Below [min_periods] values, no position has a mean. *)
Lemma rolling_mean_short w mp (l : list Q) :
  length l < mp → rolling_mean w mp l = replicate (length l) None.
Proof.
  intros Hlen. apply list_eq. intros i.
  unfold rolling_mean. rewrite list_lookup_imap.
  destruct (l !! i) as [x|] eqn:Hi; simpl.
  - apply lookup_lt_Some in Hi as Hlt.
    rewrite lookup_replicate_2 by exact Hlt.
    rewrite bool_decide_eq_false_2; [reflexivity|].
    pose proof (length_tail_le (Z.of_nat w) (take (S i) l)) as Hw.
    rewrite length_take in Hw. lia.
  - apply lookup_ge_None in Hi. symmetry.
    apply lookup_ge_None. rewrite length_replicate. exact Hi.
Qed.

(** C6. On a column shorter than [min_periods = 30], the rolling mean
    of window 120 is absent at every position, and the result has one
    entry per input position. *)
Theorem rolling10yr_short (l : list Q) :
  length l < 30 →
  length (rolling_mean 120 30 l) = length l
  ∧ rolling_mean 120 30 l = replicate (length l) None
  ∧ ∀ i, i < length l → rolling_mean 120 30 l !! i = Some None.
Proof.
  intros Hlen. split_and!.
  - apply length_rolling_mean.
  - by apply rolling_mean_short.
  - intros i Hi. rewrite rolling_mean_short by exact Hlen.
    by apply lookup_replicate_2.
Qed.

Lemma rolling10yr_short_witness :
  rolling_mean 120 30 [1#10; 2#10; 3#10]%Q = [None; None; None].
Proof.
  apply (rolling10yr_short [1#10; 2#10; 3#10]%Q). simpl. lia.
Defined.

End RollingSpec.

(** ** The sidebar filters *)

Module FilterSpec.

Lemma ts_lt_irrefl a : ¬ ts_lt a a.
Proof. unfold ts_lt. lia. Qed.

Lemma ts_lt_trans a b c : ts_lt a b → ts_lt b c → ts_lt a c.
Proof. unfold ts_lt. lia. Qed.

#[global] Instance ts_le_trans : Transitive ts_le.
Proof.
  intros a b c [Hab| ->] [Hbc| ->]; unfold ts_le; eauto using ts_lt_trans.
Qed.

#[global] Instance ts_le_total : Total ts_le.
Proof.
  intros [y1 m1 d1] [y2 m2 d2]. unfold ts_le, ts_lt; simpl.
  destruct (decide (y1 = y2)) as [->|]; [|lia].
  destruct (decide (m1 = m2)) as [->|]; [|lia].
  destruct (decide (d1 = d2)) as [->|]; [|lia].
  left. by right.
Qed.

Lemma ts_le_lt_trans a b c : ts_le a b → ts_lt b c → ts_lt a c.
Proof. intros [H| ->] Hbc; eauto using ts_lt_trans. Qed.

#[global] Instance by_date_trans : Transitive by_date.
Proof. intros a b c. unfold by_date. apply ts_le_trans. Qed.

Lemma elem_of_filtered df fs r : r ∈ filtered df fs ↔ r ∈ df ∧ selected fs r.
Proof.
  unfold filtered, selected. rewrite !list_elem_of_filter. tauto.
Qed.

Lemma filtered_sublist df fs : filtered df fs `sublist_of` df.
Proof.
  unfold filtered. etrans; apply sublist_filter.
Qed.

Lemma StronglySorted_sublist {A} (R : relation A) (l k : list A) :
  k `sublist_of` l → StronglySorted R l → StronglySorted R k.
Proof.
  induction 1 as [|x k l Hsub IH|x k l Hsub IH]; intros Hs.
  - constructor.
  - apply StronglySorted_inv in Hs as [Hs Hall].
    constructor; [by apply IH|].
    rewrite Forall_forall in Hall |- *.
    intros y Hy. apply Hall. by eapply elem_of_sublist.
  - apply StronglySorted_inv in Hs as [Hs _]. by apply IH.
Qed.

(** C8. An empty mood set, or a date range whose end lies before its
    start, selects no row: the filtered view is the empty frame. *)
Theorem filtered_degenerate (df : list Obs) (fs : FilterState) :
  mood_filter fs = [] ∨ ts_lt (fs_end fs) (fs_start fs) →
  filtered df fs = [] ∧ length (filtered df fs) = 0.
Proof.
  intros Hdeg.
  assert (filtered df fs = []) as ->; [|done].
  apply elem_of_nil_inv. intros r Hr.
  apply elem_of_filtered in Hr as [_ (Hs & He & Hm)].
  destruct Hdeg as [Hnil|Hlt].
  - rewrite Hnil in Hm. by apply elem_of_nil in Hm.
  - apply (ts_lt_irrefl (fs_start fs)).
    eapply ts_le_lt_trans; [|exact Hlt]. by etrans.
Qed.

(** C10. The filtered view is a subsequence of the frame, it is sorted
    by date when the frame is, and it holds exactly the rows of the
    frame with [start <= Date <= end] (both ends included) whose mood
    is in the mood set. *)
Theorem filtered_sorted_exact (df : list Obs) (fs : FilterState) :
  Sorted by_date df →
  filtered df fs `sublist_of` df
  ∧ Sorted by_date (filtered df fs)
  ∧ ∀ r, r ∈ filtered df fs ↔
         r ∈ df ∧ ts_le (fs_start fs) (col_Date r)
         ∧ ts_le (col_Date r) (fs_end fs) ∧ Mood r ∈ mood_filter fs.
Proof.
  intros Hsorted. split_and!.
  - apply filtered_sublist.
  - apply StronglySorted_Sorted.
    eapply StronglySorted_sublist; [apply filtered_sublist|].
    by apply Sorted_StronglySorted; [apply _|].
  - intros r. apply elem_of_filtered.
Qed.

End FilterSpec.

(** ** Sums of rationals and least squares *)

Module LeastSquares.

Local Open Scope Q_scope.

Lemma Qnat_S (n : nat) : Qnat (S n) == Qnat n + 1.
Proof.
  unfold Qnat. rewrite Nat2Z.inj_succ, <- Z.add_1_r, inject_Z_plus.
  reflexivity.
Qed.

Lemma Qnat_pos (n : nat) : (0 < n)%nat → 0 < Qnat n.
Proof.
  intros Hn. unfold Qnat. replace 0 with (inject_Z 0) by reflexivity.
  rewrite <- Zlt_Qlt. lia.
Qed.

Lemma Qsum_nonneg (l : list Q) : Forall (λ q, 0 <= q) l → 0 <= Qsum l.
Proof.
  induction 1 as [|q l Hq _ IH]; simpl; [apply Qle_refl|].
  replace 0 with (0 + 0) by reflexivity. by apply Qplus_le_compat.
Qed.

(** A sum of non-negative terms vanishes only if every term does. *)
Lemma Qsum_zero (l : list Q) :
  Forall (λ q, 0 <= q) l → Qsum l == 0 → Forall (λ q, q == 0) l.
Proof.
  induction 1 as [|q l Hq Hl IH]; simpl; intros Hsum; constructor.
  - pose proof (Qsum_nonneg l Hl). lra.
  - apply IH. pose proof (Qsum_nonneg l Hl). lra.
Qed.

Section Expansion.
Variables m b m' b' : Q.

Lemma sse_expand (xs ys : list Q) :
  sse xs ys m' b' ==
    sse xs ys m b
    + Qsum (zip_with (λ x _, shift m b m' b' x * shift m b m' b' x) xs ys)
    - 2 * (m' - m) * Qsum (zip_with (λ x y, x * residual m b x y) xs ys)
    - 2 * (b' - b) * Qsum (zip_with (residual m b) xs ys).
Proof.
  unfold sse. revert ys.
  induction xs as [|x xs IH]; intros [|y ys]; simpl; try ring.
  rewrite IH. unfold residual, shift. ring.
Qed.

Lemma shift_squares_nonneg (xs ys : list Q) :
  Forall (λ q, 0 <= q)
         (zip_with (λ x _, shift m b m' b' x * shift m b m' b' x) xs ys).
Proof.
  revert ys.
  induction xs as [|x xs IH]; intros [|y ys]; simpl; constructor; auto.
  generalize (shift m b m' b' x). intros q. nra.
Qed.
End Expansion.

(** The sums of residuals, through the sums [polyfit1] computes. *)
Lemma sum_residuals (m b : Q) (xs ys : list Q) :
  length xs = length ys →
  Qsum (zip_with (residual m b) xs ys)
    == Qsum ys - m * Qsum xs - Qnat (length xs) * b.
Proof.
  revert ys. induction xs as [|x xs IH]; intros [|y ys] Hlen;
    simplify_eq/=; [unfold Qnat; simpl; ring|].
  rewrite IH by done. rewrite Qnat_S. unfold residual. ring.
Qed.

Lemma sum_x_residuals (m b : Q) (xs ys : list Q) :
  length xs = length ys →
  Qsum (zip_with (λ x y, x * residual m b x y) xs ys)
    == Qsum (zip_with Qmult xs ys) - m * Qsum (zip_with Qmult xs xs)
       - b * Qsum xs.
Proof.
  revert ys. induction xs as [|x xs IH]; intros [|y ys] Hlen;
    simplify_eq/=; [ring|].
  rewrite IH by done. unfold residual. ring.
Qed.

Lemma sum_centered_squares (n s : Q) (xs : list Q) :
  Qsum ((λ x, (n * x - s) * (n * x - s)) <$> xs)
    == n * n * Qsum (zip_with Qmult xs xs) - 2 * n * s * Qsum xs
       + Qnat (length xs) * (s * s).
Proof.
  induction xs as [|x xs IH]; simpl; [unfold Qnat; simpl; ring|].
  rewrite IH, Qnat_S. ring.
Qed.

(** The determinant vanishes only when all abscissae are one value. *)
Lemma spread_zero (xs : list Q) :
  spread xs == 0 →
  Forall (λ x, Qnat (length xs) * x == Qsum xs) xs.
Proof.
  intros Hd.
  pose proof (sum_centered_squares (Qnat (length xs)) (Qsum xs) xs) as Hsq.
  assert (Qsum ((λ x, (Qnat (length xs) * x - Qsum xs)
                      * (Qnat (length xs) * x - Qsum xs)) <$> xs) == 0)
    as Hzero.
  { rewrite Hsq. unfold spread in Hd.
    transitivity (Qnat (length xs)
                  * (Qnat (length xs) * Qsum (zip_with Qmult xs xs)
                     - Qsum xs * Qsum xs)); [ring|].
    rewrite Hd. ring. }
  apply Qsum_zero in Hzero.
  - rewrite Forall_fmap in Hzero. eapply Forall_impl; [exact Hzero|].
    intros x Hx; simpl in Hx.
    assert (Qnat (length xs) * x - Qsum xs == 0) by nra. lra.
  - rewrite Forall_fmap. apply Forall_true. intros x; simpl.
    generalize (Qnat (length xs) * x - Qsum xs). intros q. nra.
Qed.

Lemma spread_zero_eq (xs : list Q) (x1 x2 : Q) :
  spread xs == 0 → x1 ∈ xs → x2 ∈ xs → x1 == x2.
Proof.
  intros Hd H1 H2. apply spread_zero in Hd.
  rewrite Forall_forall in Hd.
  pose proof (Hd _ H1) as E1. pose proof (Hd _ H2) as E2.
  assert (0 < Qnat (length xs)) as Hn.
  { apply Qnat_pos. destruct xs; [by apply elem_of_nil in H1|simpl; lia]. }
  nra.
Qed.

(** With a non-zero determinant, the result of [polyfit1] is the
    least-squares line. *)
Lemma polyfit1_full_rank (xs ys : list Q) :
  xs ≠ [] → length xs = length ys → ¬ spread xs == 0 →
  ∃ m b, polyfit1 xs ys = Some (m, b) ∧ least_squares_line xs ys m b.
Proof.
  intros Hne Hlen Hd. unfold polyfit1.
  rewrite bool_decide_eq_false_2 by (by destruct xs).
  rewrite bool_decide_eq_false_2 by (intros H; by apply H).
  fold (spread xs).
  destruct (Qeq_bool (spread xs) 0) eqn:Hq;
    [by apply Qeq_bool_iff in Hq|].
  eexists _, _. split; [reflexivity|].
  set (n := Qnat (length xs)).
  set (m := (n * Qsum (zip_with Qmult xs ys) - Qsum xs * Qsum ys) / spread xs).
  set (b := (Qsum ys - m * Qsum xs) / n).
  assert (0 < n) as Hn.
  { apply Qnat_pos. destruct xs; [done|simpl; lia]. }
  assert (Qsum (zip_with (residual m b) xs ys) == 0) as HR.
  { rewrite sum_residuals by done. fold n. unfold b. field. lra. }
  assert (Qsum (zip_with (λ x y, x * residual m b x y) xs ys) == 0) as HXR.
  { rewrite sum_x_residuals by done. unfold b, m.
    unfold spread in *. fold n in Hd |- *. field. split; [exact Hd|lra]. }
  intros m' b'. rewrite (sse_expand m b m' b'), HR, HXR.
  pose proof (Qsum_nonneg _ (shift_squares_nonneg m b m' b' xs ys)). lra.
Qed.

Lemma sum_shift_squares (m b m' b' : Q) (xs ys : list Q) :
  length xs = length ys →
  Qsum (zip_with (λ x _, shift m b m' b' x * shift m b m' b' x) xs ys)
    == (m' - m) * (m' - m) * Qsum (zip_with Qmult xs xs)
       + 2 * (m' - m) * (b' - b) * Qsum xs
       + Qnat (length xs) * ((b' - b) * (b' - b)).
Proof.
  revert ys. induction xs as [|x xs IH]; intros [|y ys] Hlen;
    simplify_eq/=; [unfold Qnat; simpl; ring|].
  rewrite IH by done. rewrite Qnat_S. unfold shift. ring.
Qed.

Lemma spread_nonneg (xs : list Q) : 0 <= spread xs.
Proof.
  destruct (decide (xs = [])) as [->|Hne];
    [unfold spread, Qnat; simpl; lra|].
  assert (0 < Qnat (length xs)) as Hn.
  { apply Qnat_pos. destruct xs; [done|simpl; lia]. }
  pose proof (sum_centered_squares (Qnat (length xs)) (Qsum xs) xs) as Hsq.
  assert (0 <= Qsum ((λ x, (Qnat (length xs) * x - Qsum xs)
                           * (Qnat (length xs) * x - Qsum xs)) <$> xs))
    as Hpos.
  { apply Qsum_nonneg. rewrite Forall_fmap. apply Forall_true.
    intros x; simpl.
    generalize (Qnat (length xs) * x - Qsum xs). intros q. nra. }
  rewrite Hsq in Hpos. unfold spread.
  assert (0 <= Qnat (length xs)
               * (Qnat (length xs) * Qsum (zip_with Qmult xs xs)
                  - Qsum xs * Qsum xs)) as Hprod by lra.
  revert Hn Hprod.
  generalize (Qnat (length xs) * Qsum (zip_with Qmult xs xs)
              - Qsum xs * Qsum xs), (Qnat (length xs)).
  intros d n Hn Hprod. nra.
Qed.

(** With a non-zero determinant the least-squares line is unique. *)
Lemma least_squares_unique (xs ys : list Q) (m b m' b' : Q) :
  xs ≠ [] → length xs = length ys → ¬ spread xs == 0 →
  polyfit1 xs ys = Some (m, b) →
  least_squares_line xs ys m' b' → m' == m ∧ b' == b.
Proof.
  intros Hne Hlen Hd Hfit Hmin.
  destruct (polyfit1_full_rank xs ys Hne Hlen Hd) as (m0 & b0 & Hfit0 & _).
  rewrite Hfit in Hfit0. injection Hfit0 as <- <-.
  assert (0 < Qnat (length xs)) as Hn.
  { apply Qnat_pos. destruct xs; [done|simpl; lia]. }
  assert (Qsum (zip_with (residual m b) xs ys) == 0
          ∧ Qsum (zip_with (λ x y, x * residual m b x y) xs ys) == 0)
    as [HR HXR].
  { unfold polyfit1 in Hfit.
    rewrite bool_decide_eq_false_2 in Hfit by (by destruct xs).
    rewrite bool_decide_eq_false_2 in Hfit by (intros H; by apply H).
    fold (spread xs) in Hfit.
    destruct (Qeq_bool (spread xs) 0) eqn:Hq;
      [by apply Qeq_bool_iff in Hq|].
    injection Hfit as Hm Hb.
    rewrite sum_residuals, sum_x_residuals by done.
    rewrite <- Hb, <- Hm. unfold spread in *. split; field; auto; lra. }
  pose proof (Hmin m b) as Hle.
  rewrite (sse_expand m b m' b'), HR, HXR in Hle.
  rewrite sum_shift_squares in Hle by done.
  pose proof (spread_nonneg xs) as Hd0.
  assert (0 < spread xs) as Hdpos.
  { destruct (Qlt_le_dec 0 (spread xs)); [done|]. exfalso. apply Hd. lra. }
  unfold spread in Hdpos.
  revert Hn Hdpos Hle.
  generalize (Qnat (length xs)), (Qsum (zip_with Qmult xs xs)), (Qsum xs).
  intros n sxx sx Hn Hdpos Hle.
  set (dm := m' - m) in *. set (db := b' - b) in *.
  assert (n * (dm * dm * sxx + 2 * dm * db * sx + n * (db * db))
          == dm * dm * (n * sxx - sx * sx)
             + (dm * sx + n * db) * (dm * sx + n * db)) as Hid by ring.
  assert (dm * dm * sxx + 2 * dm * db * sx + n * (db * db) <= 0) as Hq by lra.
  assert (0 <= (dm * sx + n * db) * (dm * sx + n * db)) as Hsq2
    by (generalize (dm * sx + n * db); intros q; nra).
  assert (0 <= dm * dm) as Hsq1 by nra.
  assert (dm * dm * (n * sxx - sx * sx) <= 0) as Hz by nra.
  assert (dm * dm == 0) as Hdm2 by nra.
  assert (dm == 0) as Hdm.
  { apply Qmult_integral in Hdm2. tauto. }
  assert (db == 0) as Hdb.
  { rewrite Hdm in Hq.
    assert (n * (db * db) <= 0) by lra.
    assert (db * db == 0) as Hdb2 by nra.
    apply Qmult_integral in Hdb2. tauto. }
  unfold dm, db in *. split; lra.
Qed.

End LeastSquares.

(** ** The recent trend and the linear prediction *)

Module TrendSpec.
Import LeastSquares.
Local Open Scope Q_scope.

Lemma length_arange (n : nat) : length (arange n) = n.
Proof. unfold arange. by rewrite length_fmap, length_seq. Qed.

Lemma elem_of_arange (n k : nat) : (k < n)%nat → Qnat k ∈ arange n.
Proof.
  intros Hk. unfold arange. apply list_elem_of_fmap.
  exists k. split; [done|]. apply elem_of_seq. lia.
Qed.

(** [np.arange(n)] has two distinct entries as soon as [n >= 2]. *)
Lemma spread_arange (n : nat) : (2 ≤ n)%nat → ¬ spread (arange n) == 0.
Proof.
  intros Hn Hd.
  assert (Qnat 0 == Qnat 1) as Habs.
  { apply (spread_zero_eq (arange n)); [done| |]; apply elem_of_arange; lia. }
  unfold Qnat, Qeq in Habs. simpl in Habs. lia.
Qed.

(** For a count [n >= 0], [tail] keeps the last [n] rows. *)
Lemma tail_nonneg {A} (n : Z) (l : list A) :
  (0 ≤ n)%Z → tail n l = drop (length l - Z.to_nat n) l.
Proof.
  intros Hn. unfold tail.
  destruct (n =? 0)%Z eqn:E0.
  - apply Z.eqb_eq in E0. subst n. simpl.
    rewrite Nat.sub_0_r. by rewrite drop_all.
  - apply Z.eqb_neq in E0.
    destruct (0 <? n)%Z eqn:E1; [done|].
    apply Z.ltb_ge in E1. lia.
Qed.

Lemma tail_all {A} (n : Z) (l : list A) :
  (Z.of_nat (length l) ≤ n)%Z → l ≠ [] → tail n l = l.
Proof.
  intros Hn Hne. rewrite tail_nonneg by lia.
  replace (length l - Z.to_nat n)%nat with 0%nat by lia. done.
Qed.

(** C2. For a window of [years >= 0] years, [calc_trend] works on the
    last [years*12] rows, which are all rows when there are no more
    than that.  With fewer than two of them it returns 0.  Otherwise
    it returns 12 times the slope of the line that minimises the sum
    of squared residuals of the anomalies against the indices
    0, 1, 2, ... of these rows, and that slope is the only one a
    least-squares line can have.  It raises in no case. *)
Theorem calc_trend_spec (data : list Obs) (years : Z) :
  (0 ≤ years)%Z →
  let recent := drop (length data - Z.to_nat (years * 12)) data in
  let x := arange (length recent) in
  let y := (Anomaly ∘ base) <$> recent in
  ((length data ≤ Z.to_nat (years * 12))%nat → recent = data)
  ∧ ((length recent < 2)%nat → calc_trend data years = Some 0)
  ∧ ((2 ≤ length recent)%nat →
     ∃ m b, calc_trend data years = Some (m * 12)
            ∧ least_squares_line x y m b
            ∧ ∀ m' b', least_squares_line x y m' b' → m' == m)
  ∧ is_Some (calc_trend data years).
Proof.
  intros Hy recent x y.
  assert (tail (years * 12) data = recent) as Htail
    by (apply tail_nonneg; lia).
  assert ((2 ≤ length recent)%nat →
          ∃ m b, calc_trend data years = Some (m * 12)
                 ∧ least_squares_line x y m b
                 ∧ ∀ m' b', least_squares_line x y m' b' → m' == m) as Hfit.
  { intros Hlen. unfold calc_trend. rewrite Htail.
    rewrite bool_decide_eq_false_2 by lia. fold x y.
    assert (x ≠ []) as Hne.
    { intros E. apply (f_equal length) in E. unfold x in E.
      rewrite length_arange in E. simpl in E. lia. }
    assert (length x = length y) as Hxy.
    { unfold x, y. by rewrite length_arange, length_fmap. }
    assert (¬ spread x == 0) as Hd by (by apply spread_arange).
    destruct (polyfit1_full_rank x y Hne Hxy Hd) as (m & b & Hp & Hmin).
    exists m, b. rewrite Hp. simpl. split_and!; [done|done|].
    intros m' b' Hmin'.
    by destruct (least_squares_unique x y m b m' b' Hne Hxy Hd Hp Hmin'). }
  split_and!.
  - intros Hle. unfold recent.
    replace (length data - Z.to_nat (years * 12))%nat with 0%nat by lia.
    done.
  - intros Hlen. unfold calc_trend. rewrite Htail.
    by rewrite bool_decide_eq_true_2.
  - exact Hfit.
  - destruct (decide (length recent < 2)%nat) as [Hlt|Hge].
    + unfold calc_trend. rewrite Htail.
      by rewrite bool_decide_eq_true_2.
    + destruct Hfit as (m & b & -> & _); [lia|done].
Qed.

Lemma Qsum_const (ys : list Q) (c : Q) :
  Forall (λ y, y == c) ys → Qsum ys == Qnat (length ys) * c.
Proof.
  induction 1 as [|y ys Hy _ IH]; simpl; [unfold Qnat; simpl; ring|].
  rewrite IH, Hy, Qnat_S. ring.
Qed.

End TrendSpec.

(** ** The summary values and the filter state *)

Module SummarySpec.

(** C5. The trend, the correlation and the two predictions of a run
    are computed from the loaded frame alone: two runs of the script
    on the same table with any two filter states end the same way
    and, when they end normally, carry the same four summary values. *)
Theorem summary_ignores_filters (sqrtQ : Q → Q) (raw : RawTable)
    (fs1 fs2 : FilterState) :
  v_summary <$> script sqrtQ raw fs1 = v_summary <$> script sqrtQ raw fs2
  ∧ (is_Some (script sqrtQ raw fs1) ↔ is_Some (script sqrtQ raw fs2))
  ∧ ∀ v1 v2, script sqrtQ raw fs1 = Some v1 → script sqrtQ raw fs2 = Some v2 →
      trend_10 (v_summary v1) = trend_10 (v_summary v2)
      ∧ corr_year_anomaly (v_summary v1) = corr_year_anomaly (v_summary v2)
      ∧ pred_2030 (v_summary v1) = pred_2030 (v_summary v2)
      ∧ pred_2050 (v_summary v1) = pred_2050 (v_summary v2).
Proof.
  unfold script.
  destruct (load_nasa_data raw) as [df0|]; simpl;
    [|split_and!; [done|done|intros ?? [=]]].
  destruct (last (prepare df0)) as [latest|]; simpl;
    [|split_and!; [done|done|intros ?? [=]]].
  destruct (summary sqrtQ (prepare df0)) as [s|]; simpl;
    [|split_and!; [done|done|intros ?? [=]]].
  split_and!; [done|done|]. intros v1 v2 [= <-] [= <-]. done.
Qed.

End SummarySpec.

(** ** The reshaping *)

Module LoaderSpec.
Import FilterSpec.

Ltac month_index :=
  first [ by exists 0%nat | by exists 1%nat | by exists 2%nat
        | by exists 3%nat | by exists 4%nat | by exists 5%nat
        | by exists 6%nat | by exists 7%nat | by exists 8%nat
        | by exists 9%nat | by exists 10%nat | by exists 11%nat ].

(** [month_map] numbers the calendar abbreviations from 1. *)
Lemma month_map_months (c : string) (k : Z) :
  month_map !! c = Some k ↔ ∃ i, months !! i = Some c ∧ k = Z.of_nat (S i).
Proof.
  split.
  - intros H. unfold month_map in H.
    apply elem_of_list_to_map_2 in H.
    repeat (apply elem_of_cons in H as [[= -> ->]|H]; [month_index|]).
    by apply elem_of_nil in H.
  - intros (i & Hi & ->).
    do 12 (destruct i as [|i]; [injection Hi as <-; reflexivity|]).
    discriminate Hi.
Qed.

Lemma month_map_is_Some (c : string) :
  is_Some (month_map !! c) ↔ c ∈ months.
Proof.
  split.
  - intros [k (i & Hi & _)%month_map_months].
    by eapply list_elem_of_lookup_2.
  - intros (i & Hi)%list_elem_of_lookup_1.
    exists (Z.of_nat (S i)). apply month_map_months. eauto.
Qed.

(** Distinct abbreviations have distinct numbers. *)
Lemma month_map_inj (c1 c2 : string) (k : Z) :
  month_map !! c1 = Some k → month_map !! c2 = Some k → c1 = c2.
Proof.
  intros (i1 & H1 & E1)%month_map_months (i2 & H2 & E2)%month_map_months.
  assert (i1 = i2) as -> by lia. congruence.
Qed.

(** Whenever [with_date] gives a row, it is the row [dated]. *)
Lemma with_date_Some (x : Z * string * Q) (r : Row) :
  with_date x = Some r → r = dated x.
Proof.
  unfold with_date, dated, to_datetime.
  destruct (month_map !! x.1.2) as [k|]; simpl; [|done].
  case_decide; simpl; [|done]. by intros [= <-].
Qed.

Lemma mapM_with_date_Some (l : list (Z * string * Q)) (k : list Row) :
  mapM with_date l = Some k → k = dated <$> l.
Proof.
  revert k. induction l as [|x l IH]; intros k; simpl.
  - by intros [= <-].
  - destruct (with_date x) as [r|] eqn:Hr; simpl; [|done].
    destruct (mapM with_date l) as [k'|]; simpl; [|done].
    intros [= <-]. by rewrite (with_date_Some x r Hr), (IH k').
Qed.

Lemma mapM_with_date (l : list (Z * string * Q)) :
  Forall (λ x, ∀ k, month_map !! x.1.2 = Some k → in_ns_bounds x.1.1 k) l →
  mapM with_date (isin_months l) = Some (dated <$> isin_months l).
Proof.
  unfold isin_months.
  induction 1 as [|x l Hy _ IH]; [done|].
  rewrite filter_cons. case_decide as Hx; [|exact IH].
  rewrite fmap_cons. simpl. rewrite IH. destruct Hx as [k Hk].
  unfold with_date, dated, to_datetime. rewrite Hk. simpl.
  rewrite decide_True by (by apply Hy). done.
Qed.

Lemma elem_of_dropna_melt (t : RawTable) (x : Z * string * Q) :
  x ∈ dropna (melt t) →
  ∃ row j, row ∈ table_rows t ∧ value_columns t !! j = Some x.1.2
           ∧ cell row j = Some x.2 ∧ x.1.1 = row_year row.
Proof.
  unfold dropna, melt. intros (y & Hy & Hyx)%list_elem_of_omap.
  apply list_elem_of_join in Hy as (l & Hy & Hl).
  apply elem_of_lookup_imap in Hl as (j & c & -> & Hc).
  apply list_elem_of_fmap in Hy as (row & -> & Hrow).
  simpl in Hyx. destruct (cell row j) as [v|] eqn:Hv; [|done].
  injection Hyx as <-. simpl. eauto 10.
Qed.

(** Whatever the reshaping returns is the sorted long frame. *)
Lemma load_nasa_data_Some (t : RawTable) (df : list Row) :
  load_nasa_data t = Some df → df = sort_values_Date (long_rows t).
Proof.
  unfold load_nasa_data, long_rows.
  destruct (mapM with_date _) as [k|] eqn:Hk; simpl; [|done].
  intros [= <-]. by rewrite (mapM_with_date_Some _ _ Hk).
Qed.

(** With dates in bounds the reshaping does not raise. *)
Lemma load_nasa_data_total (t : RawTable) :
  dates_in_bounds t →
  load_nasa_data t = Some (sort_values_Date (long_rows t)).
Proof.
  intros Hb. unfold load_nasa_data. rewrite mapM_with_date; [done|].
  apply Forall_forall.
  intros x (row & j & Hrow & Hc & Hv & ->)%elem_of_dropna_melt k Hk.
  apply month_map_months in Hk as (i & Hi & ->).
  by eapply Hb.
Qed.

Lemma years_in_range_bounds (t : RawTable) :
  years_in_range t → dates_in_bounds t.
Proof.
  intros Hy row j c i v Hrow _ _ _.
  unfold years_in_range in Hy. rewrite Forall_forall in Hy.
  specialize (Hy row Hrow). unfold in_ns_bounds. lia.
Qed.

Lemma sort_values_Date_perm (l : list Row) : sort_values_Date l ≡ₚ l.
Proof. apply merge_sort_Permutation. Qed.

Lemma elem_of_melt (t : RawTable) (x : Z * string * option Q) :
  x ∈ melt t ↔
  ∃ row j c, row ∈ table_rows t ∧ value_columns t !! j = Some c
             ∧ x = (row_year row, c, cell row j).
Proof.
  unfold melt. rewrite list_elem_of_join. split.
  - intros (l & Hx & Hl).
    apply elem_of_lookup_imap in Hl as (j & c & -> & Hc).
    apply list_elem_of_fmap in Hx as (row & -> & Hrow). eauto 10.
  - intros (row & j & c & Hrow & Hc & ->).
    eexists. split; [|apply elem_of_lookup_imap; eauto].
    apply list_elem_of_fmap. eauto.
Qed.

(** The rows of the long frame are the non-missing cells of the
    month columns, dated on the first of their month. *)
Lemma elem_of_long_rows (t : RawTable) (r : Row) :
  r ∈ long_rows t ↔
  ∃ row j c i v,
    row ∈ table_rows t ∧ value_columns t !! j = Some c
    ∧ months !! i = Some c ∧ cell row j = Some v
    ∧ r = mk_obs (row_year row) c v (mk_ts (row_year row) (Z.of_nat (S i)) 1).
Proof.
  unfold long_rows, isin_months, dropna.
  rewrite list_elem_of_fmap. split.
  - intros (x & -> & Hx).
    apply list_elem_of_filter in Hx as [[k Hk] Hx].
    apply list_elem_of_omap in Hx as (y & Hy & Hyx).
    apply elem_of_melt in Hy as (row & j & c & Hrow & Hc & ->).
    simpl in Hyx. destruct (cell row j) as [v|] eqn:Hv; [|done].
    injection Hyx as <-. simpl in *.
    pose proof Hk as (i & Hi & ->)%month_map_months.
    exists row, j, c, i, v. split_and!; try done.
    unfold dated; simpl. by rewrite Hk.
  - intros (row & j & c & i & v & Hrow & Hc & Hi & Hv & ->).
    assert (month_map !! c = Some (Z.of_nat (S i))) as Hk
      by (apply month_map_months; eauto).
    exists (row_year row, c, v). split.
    + unfold dated; simpl. by rewrite Hk.
    + apply list_elem_of_filter. split; [by eexists|].
      apply list_elem_of_omap. exists (row_year row, c, cell row j).
      split; [apply elem_of_melt; eauto 10|]. simpl. by rewrite Hv.
Qed.

(** The (year, label) keys of the melted frame. *)
Lemma keys_melt_cols (rows : list RawRow) (F : nat → RawRow → option Q)
    (cols : list string) :
  fst <$> mjoin (imap (λ j c, (λ r, (row_year r, c, F j r)) <$> rows) cols)
  = mjoin ((λ c, (λ r, (row_year r, c)) <$> rows) <$> cols).
Proof.
  revert F. induction cols as [|c cols IH]; intros F; [done|].
  rewrite imap_cons, fmap_cons. simpl. rewrite fmap_app. f_equal.
  - rewrite <- list_fmap_compose. by apply list_fmap_ext.
  - apply (IH (λ j, F (S j))).
Qed.

Lemma keys_melt (t : RawTable) :
  fst <$> melt t
  = mjoin ((λ c, (λ r, (row_year r, c)) <$> table_rows t) <$> value_columns t).
Proof. unfold melt, cell. apply (keys_melt_cols _ (λ j r, mjoin (row_cells r !! j))). Qed.

Lemma NoDup_keys (years : list Z) (cols : list string) :
  NoDup years → NoDup cols →
  NoDup (mjoin ((λ c, (λ y, (y, c)) <$> years) <$> cols)).
Proof.
  intros Hy Hc. induction Hc as [|c cols Hnotin Hc IH]; [constructor|].
  rewrite fmap_cons. simpl. apply NoDup_app. split_and!.
  - apply NoDup_fmap_2; [|done]. by intros y1 y2 [= ->].
  - intros [y c'] (y0 & [= -> ->] & _)%list_elem_of_fmap Hin.
    apply list_elem_of_join in Hin as (l & Hl & (c'' & -> & Hc'')%list_elem_of_fmap).
    apply list_elem_of_fmap in Hl as (y1 & [= -> ->] & _). done.
  - exact IH.
Qed.

Lemma keys_isin_dropna (m : list (Z * string * option Q)) :
  fst <$> isin_months (dropna m) `sublist_of` fst <$> m.
Proof.
  unfold isin_months, dropna.
  induction m as [|[[y c] [a|]] m IH]; simpl.
  - constructor.
  - rewrite filter_cons. case_decide; simpl.
    + by apply sublist_skip.
    + by apply sublist_cons.
  - by apply sublist_cons.
Qed.

Lemma NoDup_long_keys (t : RawTable) :
  keyed_by_year t → NoDup (fst <$> isin_months (dropna (melt t))).
Proof.
  intros [Hy Hc]. eapply sublist_NoDup; [|apply keys_isin_dropna].
  rewrite keys_melt.
  pose proof (NoDup_keys _ _ Hy Hc) as H.
  erewrite list_fmap_ext; [exact H|]. intros _ c _. simpl.
  rewrite <- list_fmap_compose. by apply list_fmap_ext.
Qed.

Lemma NoDup_long_dates (t : RawTable) :
  keyed_by_year t → NoDup (Date <$> long_rows t).
Proof.
  intros Hk. unfold long_rows.
  set (L := isin_months (dropna (melt t))).
  set (h := λ k : Z * string, mk_ts k.1 (default 0%Z (month_map !! k.2)) 1).
  assert (Date <$> (dated <$> L) = h <$> (fst <$> L)) as ->.
  { rewrite <- !list_fmap_compose. by apply list_fmap_ext. }
  apply NoDup_fmap_2_strong; [|by apply NoDup_long_keys].
  intros [y1 c1] [y2 c2] H1 H2 Hh.
  assert (∀ y c, (y, c) ∈ fst <$> L → is_Some (month_map !! c)) as Hmonth.
  { intros y c ([[y' c'] a] & [= -> ->] & Hin)%list_elem_of_fmap.
    unfold L, isin_months in Hin.
    by apply list_elem_of_filter in Hin as [Hin _]. }
  destruct (Hmonth _ _ H1) as [k1 Hk1]. destruct (Hmonth _ _ H2) as [k2 Hk2].
  unfold h in Hh. simpl in Hh. rewrite Hk1, Hk2 in Hh.
  simpl in Hh. injection Hh as -> ->.
  f_equal. by eapply month_map_inj.
Qed.

#[global] Instance row_le_trans : Transitive row_le.
Proof. intros a b c. unfold row_le. apply ts_le_trans. Qed.

#[global] Instance row_le_total : Total row_le.
Proof. intros a b. unfold row_le. apply ts_le_total. Qed.

Lemma sort_values_Date_sorted (l : list Row) :
  StronglySorted row_le (sort_values_Date l).
Proof.
  unfold sort_values_Date. apply (StronglySorted_merge_sort row_le).
Qed.

(** Sorted without repeated dates is strictly sorted. *)
Lemma StronglySorted_strict (l : list Row) :
  StronglySorted row_le l → NoDup (Date <$> l) → StronglySorted row_lt l.
Proof.
  induction 1 as [|a l Hs IH Hall]; intros Hnd; [constructor|].
  rewrite fmap_cons in Hnd. apply NoDup_cons in Hnd as [Hnotin Hnd].
  constructor; [by apply IH|].
  rewrite Forall_forall in Hall |- *. intros b Hb.
  destruct (Hall b Hb) as [Hlt|Heq]; [exact Hlt|].
  exfalso. apply Hnotin. rewrite Heq. apply list_elem_of_fmap. eauto.
Qed.


Section Groups.
Variables (y : Z) (m : string).
Hypothesis Hm : m ∈ months.

Local Abbreviation pipe := (group_of_melted y m).

Lemma pipe_app M1 M2 : pipe (M1 ++ M2) = pipe M1 ++ pipe M2.
Proof.
  unfold group_of_melted, group_by_year_month, isin_months, dropna.
  by rewrite omap_app, filter_app, fmap_app, filter_app, fmap_app.
Qed.

Lemma pipe_column (rows : list RawRow) (c : string) (a : RawRow → option Q) :
  pipe ((λ r, (row_year r, c, a r)) <$> rows)
  = if decide (c = m)
    then omap (λ r, if decide (row_year r = y) then a r else None) rows
    else [].
Proof.
  induction rows as [|r rows IH].
  { by case_decide. }
  rewrite fmap_cons.
  change (?x :: ?l) with ([x] ++ l) at 1. rewrite pipe_app, IH.
  unfold group_of_melted, group_by_year_month, isin_months, dropna. simpl.
  destruct (a r) as [v|] eqn:Hv; simpl.
  - rewrite filter_cons. simpl.
    destruct (decide (c = m)) as [->|Hne].
    + rewrite decide_True by (by apply month_map_is_Some).
      simpl. rewrite filter_cons. simpl.
      destruct (decide (row_year r = y)) as [Hy|Hy].
      * rewrite decide_True by done. simpl. done.
      * rewrite decide_False by tauto. simpl. done.
    + case_decide; simpl; [|done].
      rewrite filter_cons. simpl. rewrite decide_False by tauto. done.
  - destruct (decide (c = m)); [|done]. simpl.
    destruct (decide (row_year r = y)); done.
Qed.

Lemma pipe_columns (rows : list RawRow) (F : nat → RawRow → option Q)
    (cols : list string) :
  pipe (mjoin (imap (λ j c, (λ r, (row_year r, c, F j r)) <$> rows) cols))
  = mjoin (imap (λ j c,
                   if decide (c = m)
                   then omap (λ r, if decide (row_year r = y)
                                   then F j r else None) rows
                   else [])
                cols).
Proof.
  revert F. induction cols as [|c cols IH]; intros F; [done|].
  rewrite !imap_cons. simpl. rewrite pipe_app, pipe_column. f_equal.
  apply (IH (λ j, F (S j))).
Qed.

(** Grouping the long frame gives back the cells of the table. *)
Lemma group_long_rows (t : RawTable) :
  group_by_year_month (long_rows t) y m = cells_at t y m.
Proof.
  unfold long_rows, melt, cells_at.
  apply (pipe_columns (table_rows t) (λ j r, cell r j)).
Qed.
End Groups.

Lemma group_sorted (l : list Row) (y : Z) (m : string) :
  group_by_year_month (sort_values_Date l) y m ≡ₚ group_by_year_month l y m.
Proof. unfold group_by_year_month. by rewrite sort_values_Date_perm. Qed.


End LoaderSpec.

(** ** Worked instances *)

Module Examples.
Import MoodSpec RollingSpec FilterSpec LeastSquares TrendSpec LoaderSpec.

Example load_jan_table : load_nasa_data jan_table = Some jan_rows.
Proof. vm_compute. reflexivity. Qed.

Example moods_jan_df : Mood <$> jan_df = ["Stable 🙂"; "Stable 🙂"; "Stable 🙂"].
Proof. vm_compute. reflexivity. Qed.

Lemma calc_trend_spec_witness : is_Some (calc_trend jan_df 10).
Proof.
  pose proof (calc_trend_spec jan_df 10 ltac:(lia)) as H.
  cbv zeta in H. apply H.
Defined.

Lemma filtered_degenerate_witness :
  filtered jan_df (mk_fs (mk_ts 2000 1 1) (mk_ts 2002 12 31) []) = [].
Proof.
  apply (filtered_degenerate jan_df
           (mk_fs (mk_ts 2000 1 1) (mk_ts 2002 12 31) [])).
  left. reflexivity.
Defined.

Lemma filtered_sorted_exact_witness :
  Sorted by_date
    (filtered jan_df (mk_fs (mk_ts 2000 6 1) (mk_ts 2002 1 1) ["Stable 🙂"])).
Proof.
  apply (filtered_sorted_exact jan_df
           (mk_fs (mk_ts 2000 6 1) (mk_ts 2002 1 1) ["Stable 🙂"])).
  repeat constructor; left; unfold ts_lt; simpl; lia.
Defined.





End Examples.

(** ** Colours and derived columns *)

Module PrepareSpec.
Import MoodSpec RollingSpec LeastSquares.

Lemma elem_of_mood_options (s : string) :
  s ∈ mood_options ↔ ∃ m, s = label_text m.
Proof.
  unfold mood_options. split.
  - intros H. repeat (apply elem_of_cons in H as [->|H]).
    + by exists Hot.
    + by exists Warm.
    + by exists Stable.
    + by exists Cold.
    + by apply elem_of_nil in H.
  - intros [[] ->]; simpl; set_solver.
Qed.

Lemma get_earth_mood_label (a : Q) : ∃ m, get_earth_mood a = label_text m.
Proof.
  destruct (get_earth_mood_cases a) as [[E _]|[[E _]|[[E _]|[E _]]]]; eauto.
Qed.

Lemma get_mood_color_label (m : MoodLabel) :
  get_mood_color (label_text m) = label_color m.
Proof. by destruct m. Qed.

(** X1. The colour of a row is the colour of the band of its anomaly;
    the fallback grey of [get_mood_color] is never the colour of a
    mood that [get_earth_mood] returned. *)
Theorem mood_color_of_anomaly (a : Q) (m : MoodLabel) :
  in_band m a →
  get_mood_color (get_earth_mood a) = label_color m
  ∧ get_mood_color (get_earth_mood a) ≠ "#999".
Proof.
  intros Hb. apply get_earth_mood_band in Hb. rewrite Hb.
  rewrite get_mood_color_label. split; [done|]. by destruct m.
Qed.

Lemma mood_color_of_anomaly_witness :
  get_mood_color (get_earth_mood (7#10)) = "#FF8800"
  ∧ get_mood_color (get_earth_mood (7#10)) ≠ "#999".
Proof.
  apply (mood_color_of_anomaly (7#10) Warm). simpl. split.
  - unfold Qle; simpl; lia.
  - unfold Qlt; simpl; lia.
Defined.

(** X2. [get_mood_color] returns the fallback ["#999"] exactly for the
    strings that are not one of the four mood labels. *)
Theorem get_mood_color_fallback (mood : string) :
  get_mood_color mood = "#999" ↔ mood ∉ mood_options.
Proof.
  split.
  - intros Hc (m & ->)%elem_of_mood_options.
    rewrite get_mood_color_label in Hc. by destruct m.
  - intros Hnot. unfold get_mood_color.
    assert (mood_colors !! mood = None) as ->; [|done].
    unfold mood_colors. apply not_elem_of_list_to_map_1. exact Hnot.
Qed.

Lemma length_prepare (df : list Row) : length (prepare df) = length df.
Proof.
  unfold prepare. rewrite length_zip_with, length_rolling_mean, length_fmap.
  lia.
Qed.

Lemma lookup_prepare (df : list Row) (i : nat) (r : Row) :
  df !! i = Some r →
  ∃ ro, rolling_mean 120 30 (Anomaly <$> df) !! i = Some ro
        ∧ prepare df !! i
          = Some (mk_prow r (get_earth_mood (Anomaly r))
                          (get_mood_color (get_earth_mood (Anomaly r))) ro).
Proof.
  intros Hi.
  destruct (rolling_mean 120 30 (Anomaly <$> df) !! i) as [ro|] eqn:Hro.
  - exists ro. split; [done|]. unfold prepare.
    rewrite lookup_zip_with, Hi. simpl. by rewrite Hro.
  - apply lookup_ge_None in Hro.
    rewrite length_rolling_mean, length_fmap in Hro.
    apply lookup_lt_Some in Hi. lia.
Qed.

Lemma base_prepare (df : list Row) : base <$> prepare df = df.
Proof.
  apply list_eq. intros i. rewrite list_lookup_fmap.
  destruct (df !! i) as [r|] eqn:Hi.
  - destruct (lookup_prepare df i r Hi) as (ro & _ & ->). done.
  - apply lookup_ge_None in Hi.
    rewrite (proj2 (lookup_ge_None (prepare df) i)); [done|].
    rewrite length_prepare. exact Hi.
Qed.

Lemma elem_of_prepare (df : list Row) (r : Obs) :
  r ∈ prepare df →
  base r ∈ df ∧ Mood r = get_earth_mood (Anomaly (base r))
  ∧ Mood_Color r = get_mood_color (Mood r).
Proof.
  intros (i & Hi)%list_elem_of_lookup_1.
  assert (is_Some (df !! i)) as [r0 Hr0].
  { apply lookup_lt_is_Some. rewrite <- length_prepare.
    by eapply lookup_lt_Some. }
  destruct (lookup_prepare df i r0 Hr0) as (ro & _ & Hp).
  rewrite Hp in Hi. injection Hi as <-. simpl.
  split; [by eapply list_elem_of_lookup_2|done].
Qed.

End PrepareSpec.

(** ** More on the rolling mean *)

Module RollingMore.
Import LeastSquares TrendSpec.
Local Open Scope Q_scope.

Lemma rolling_window (l : list Q) (i : nat) :
  (i < length l)%nat → tail 120 (take (S i) l) = window_at l i.
Proof.
  intros Hi. rewrite tail_nonneg by lia. unfold window_at.
  rewrite length_take. f_equal. lia.
Qed.

Lemma length_window_at (l : list Q) (i : nat) :
  (i < length l)%nat → length (window_at l i) = (S i `min` 120)%nat.
Proof.
  intros Hi. unfold window_at. rewrite length_drop, length_take. lia.
Qed.

Lemma lookup_rolling10yr (l : list Q) (i : nat) :
  (i < length l)%nat →
  rolling_mean 120 30 l !! i
  = Some (if bool_decide (30 ≤ length (window_at l i))%nat
          then Some (Qsum (window_at l i) / Qnat (length (window_at l i)))
          else None).
Proof.
  intros Hi. unfold rolling_mean. rewrite list_lookup_imap.
  destruct (lookup_lt_is_Some_2 l i Hi) as [x ->]. simpl.
  change (Z.of_nat 120) with 120%Z. by rewrite rolling_window.
Qed.

(** X4. Inside the column, the rolling mean of line 89 is absent at the
    first 29 positions and present from position 29 on, where it is the
    mean of the values at the last [min (i+1) 120] positions up to and
    including [i]. *)
Theorem rolling10yr_defined (l : list Q) (i : nat) :
  (i < length l)%nat →
  ((i < 29)%nat → rolling_mean 120 30 l !! i = Some None)
  ∧ ((29 ≤ i)%nat →
     rolling_mean 120 30 l !! i
     = Some (Some (Qsum (window_at l i) / Qnat (length (window_at l i)))))
  ∧ length (window_at l i) = (S i `min` 120)%nat
  ∧ window_at l i `suffix_of` take (S i) l.
Proof.
  intros Hi. pose proof (length_window_at l i Hi) as Hlen.
  split_and!.
  - intros Hlt. rewrite lookup_rolling10yr by done.
    rewrite bool_decide_eq_false_2 by lia. done.
  - intros Hge. rewrite lookup_rolling10yr by done.
    rewrite bool_decide_eq_true_2 by lia. done.
  - exact Hlen.
  - unfold window_at. apply suffix_drop.
Qed.

Lemma rolling10yr_defined_witness :
  rolling_mean 120 30 (replicate 40 (1#2)) !! 10%nat = Some None.
Proof.
  apply (rolling10yr_defined (replicate 40 (1#2)) 10).
  - rewrite length_replicate. lia.
  - lia.
Defined.

Lemma Qsum_bounds (l : list Q) (lo hi : Q) :
  Forall (λ x, lo <= x ∧ x <= hi) l →
  Qnat (length l) * lo <= Qsum l ∧ Qsum l <= Qnat (length l) * hi.
Proof.
  induction 1 as [|x l [Hlo Hhi] _ [IHlo IHhi]]; simpl.
  - change (Qnat 0) with (0#1). lra.
  - rewrite Qnat_S. nra.
Qed.

(** A mean lies between any bounds of its terms. *)
Lemma mean_bounds (l : list Q) (lo hi : Q) :
  l ≠ [] → Forall (λ x, lo <= x ∧ x <= hi) l →
  lo <= Qsum l / Qnat (length l) ∧ Qsum l / Qnat (length l) <= hi.
Proof.
  intros Hne Hall. destruct (Qsum_bounds l lo hi Hall) as [Hlo Hhi].
  assert (0 < Qnat (length l)) as Hn.
  { apply Qnat_pos. destruct l; [done|simpl; lia]. }
  split.
  - apply Qle_shift_div_l; [done|]. by rewrite Qmult_comm.
  - apply Qle_shift_div_r; [done|]. by rewrite Qmult_comm.
Qed.

(** X5. A rolling mean never leaves the range of the column: when all
    anomalies lie between [lo] and [hi], so does every rolling mean that
    is present. *)
Theorem rolling10yr_bounds (l : list Q) (lo hi : Q) (i : nat) (v : Q) :
  Forall (λ x, lo <= x ∧ x <= hi) l →
  rolling_mean 120 30 l !! i = Some (Some v) →
  lo <= v ∧ v <= hi.
Proof.
  intros Hall Hv.
  assert (i < length l)%nat as Hi.
  { apply lookup_lt_Some in Hv. by rewrite RollingSpec.length_rolling_mean in Hv. }
  rewrite lookup_rolling10yr in Hv by done.
  case_bool_decide as Hlen; [|done]. injection Hv as <-.
  apply mean_bounds.
  - intros E. rewrite E in Hlen. simpl in Hlen. lia.
  - unfold window_at. by apply Forall_drop, Forall_take.
Qed.

Lemma rolling10yr_bounds_witness :
  (-1 <= 0#30 ∧ 0#30 <= 1)%Q.
Proof.
  apply (rolling10yr_bounds (replicate 30 0) (-1) 1 29 (0#30)).
  - apply Forall_replicate. split; unfold Qle; simpl; lia.
  - vm_compute. reflexivity.
Defined.

End RollingMore.

(** ** More on the filters and the charts of the filtered view *)

Module FilterMore.
Import FilterSpec PrepareSpec.

Lemma filter_all {A} (P : A → Prop) `{!∀ x, Decision (P x)} (l : list A) :
  Forall P l → filter P l = l.
Proof.
  induction 1 as [|x l Hx _ IH]; [done|].
  by rewrite filter_cons_True, IH.
Qed.

Lemma ts_le_refl (a : Timestamp) : ts_le a a.
Proof. unfold ts_le. by right. Qed.

Lemma ts_min_le (a b : Timestamp) : ts_le (ts_min a b) a ∧ ts_le (ts_min a b) b.
Proof.
  unfold ts_min. destruct (decide (ts_le a b)) as [H|H].
  - split; [apply ts_le_refl|exact H].
  - split; [|apply ts_le_refl].
    destruct (ts_le_total a b) as [H'|H']; [done|exact H'].
Qed.

Lemma ts_max_ge (a b : Timestamp) : ts_le a (ts_max a b) ∧ ts_le b (ts_max a b).
Proof.
  unfold ts_max. destruct (decide (ts_le a b)) as [H|H].
  - split; [exact H|apply ts_le_refl].
  - split; [apply ts_le_refl|].
    destruct (ts_le_total a b) as [H'|H']; [done|exact H'].
Qed.

Lemma min_date_le (df : list Obs) (lo : Timestamp) :
  min_date df = Some lo → Forall (λ r, ts_le lo (col_Date r)) df.
Proof.
  destruct df as [|r0 rs]; [done|]. intros [= <-].
  induction rs as [|r rs IH]; simpl.
  - constructor; [apply ts_le_refl|constructor].
  - destruct (ts_min_le (col_Date r)
                (foldr (λ x m, ts_min (col_Date x) m) (col_Date r0) rs))
      as [H1 H2].
    apply Forall_cons in IH as [IH0 IH].
    constructor; [etrans; [exact H2|exact IH0]|]. constructor; [exact H1|].
    eapply Forall_impl; [exact IH|]. intros x Hx. etrans; [exact H2|exact Hx].
Qed.

Lemma max_date_ge (df : list Obs) (hi : Timestamp) :
  max_date df = Some hi → Forall (λ r, ts_le (col_Date r) hi) df.
Proof.
  destruct df as [|r0 rs]; [done|]. intros [= <-].
  induction rs as [|r rs IH]; simpl.
  - constructor; [apply ts_le_refl|constructor].
  - destruct (ts_max_ge (col_Date r)
                (foldr (λ x m, ts_max (col_Date x) m) (col_Date r0) rs))
      as [H1 H2].
    apply Forall_cons in IH as [IH0 IH].
    constructor; [etrans; [exact IH0|exact H2]|]. constructor; [exact H1|].
    eapply Forall_impl; [exact IH|]. intros x Hx. etrans; [exact Hx|exact H2].
Qed.

Lemma prepared_mood_options (rows : list Row) :
  Forall (λ r, Mood r ∈ mood_options) (prepare rows).
Proof.
  apply Forall_forall. intros r (_ & -> & _)%elem_of_prepare.
  apply elem_of_mood_options. apply get_earth_mood_label.
Qed.

(** X6. Before the user touches the sidebar, nothing is filtered out:
    for a frame with at least one row, the default date range and the
    default mood selection exist and the filtered view is the whole
    prepared frame. *)
Theorem default_filter_shows_all (rows : list Row) :
  rows ≠ [] →
  ∃ fs, default_filter (prepare rows) = Some fs
        ∧ mood_filter fs = mood_options
        ∧ filtered (prepare rows) fs = prepare rows.
Proof.
  intros Hne.
  assert (prepare rows ≠ []) as Hp.
  { intros E. apply (f_equal length) in E. rewrite length_prepare in E.
    by destruct rows. }
  destruct (min_date (prepare rows)) as [lo|] eqn:Hlo;
    [|by destruct (prepare rows)].
  destruct (max_date (prepare rows)) as [hi|] eqn:Hhi;
    [|by destruct (prepare rows)].
  exists (mk_fs lo hi mood_options).
  unfold default_filter. rewrite Hlo, Hhi. simpl. split_and!; [done|done|].
  unfold filtered; simpl.
  pose proof (min_date_le _ _ Hlo) as H1.
  pose proof (max_date_ge _ _ Hhi) as H2.
  rewrite (filter_all (λ r, ts_le lo (col_Date r) ∧ ts_le (col_Date r) hi)).
  - apply filter_all. apply prepared_mood_options.
  - rewrite Forall_forall in H1, H2 |- *. intros r Hr. split; auto.
Qed.

Lemma default_filter_shows_all_witness :
  ∃ fs, default_filter (prepare jan_rows) = Some fs
        ∧ mood_filter fs = mood_options
        ∧ filtered (prepare jan_rows) fs = prepare jan_rows.
Proof. apply (default_filter_shows_all jan_rows). done. Defined.

Lemma filtered_as_filter (df : list Obs) (fs : FilterState) :
  filtered df fs = filter (selected fs) df.
Proof.
  unfold filtered. rewrite list_filter_filter. apply list_filter_iff.
  intros r. unfold selected. tauto.
Qed.

(** X7. Filters compose: applying two filter states one after the other
    gives the same view in either order, and applying one filter state
    twice changes nothing. *)
Theorem filtered_compose (df : list Obs) (fs1 fs2 : FilterState) :
  filtered (filtered df fs1) fs2 = filtered (filtered df fs2) fs1
  ∧ filtered (filtered df fs1) fs1 = filtered df fs1.
Proof.
  rewrite !filtered_as_filter, !list_filter_filter. split.
  - apply list_filter_iff. intros r. tauto.
  - apply list_filter_iff. intros r. tauto.
Qed.

(** X8. Narrowing the controls never adds rows: when the date range of
    one filter state lies inside that of another and its moods are
    among the other's, its view is a subsequence of the other's view. *)
Theorem filtered_narrow (df : list Obs) (fs1 fs2 : FilterState) :
  ts_le (fs_start fs2) (fs_start fs1) →
  ts_le (fs_end fs1) (fs_end fs2) →
  mood_filter fs1 ⊆ mood_filter fs2 →
  filtered df fs1 `sublist_of` filtered df fs2.
Proof.
  intros Hs He Hm.
  assert (filtered df fs1 = filtered (filtered df fs2) fs1) as ->.
  { rewrite !filtered_as_filter. symmetry. apply list_filter_filter_l.
    intros r (H1 & H2 & H3). split_and!; [by etrans|by etrans|by apply Hm]. }
  apply filtered_sublist.
Qed.

Lemma filtered_narrow_witness :
  filtered jan_df (mk_fs (mk_ts 2001 1 1) (mk_ts 2001 12 31) ["Stable 🙂"])
  `sublist_of`
  filtered jan_df (mk_fs (mk_ts 2000 1 1) (mk_ts 2002 12 31) mood_options).
Proof.
  apply (filtered_narrow jan_df
           (mk_fs (mk_ts 2001 1 1) (mk_ts 2001 12 31) ["Stable 🙂"])
           (mk_fs (mk_ts 2000 1 1) (mk_ts 2002 12 31) mood_options)).
  - left. unfold ts_lt; simpl. lia.
  - left. unfold ts_lt; simpl. lia.
  - simpl. intros x Hx. apply list_elem_of_singleton in Hx as ->.
    unfold mood_options. do 2 right. left.
Defined.

End FilterMore.

(** ** The marker traces and the pie chart *)

Module ChartSpec.
Import FilterSpec PrepareSpec FilterMore.

Section Partition.
Context {A K : Type} `{EqDecision K} (key : A → K).

Lemma join_skip_key (x : A) (f : K → list A) (ks : list K) :
  key x ∉ ks →
  (λ k, if decide (key x = k) then x :: f k else f k) <$> ks = f <$> ks.
Proof.
  intros Hnot. apply list_fmap_ext. intros i k Hk.
  apply list_elem_of_lookup_2 in Hk.
  destruct (decide (key x = k)) as [Heq|]; [|done]. subst k. done.
Qed.

Lemma join_insert_key (x : A) (f : K → list A) (ks : list K) :
  NoDup ks → key x ∈ ks →
  mjoin ((λ k, if decide (key x = k) then x :: f k else f k) <$> ks)
  ≡ₚ x :: mjoin (f <$> ks).
Proof.
  induction 1 as [|k ks Hnot Hnd IH]; intros Hin.
  { by apply elem_of_nil in Hin. }
  rewrite !fmap_cons. simpl.
  destruct (decide (key x = k)) as [<-|Hne].
  - by rewrite join_skip_key.
  - apply elem_of_cons in Hin as [Heq|Hin]; [done|].
    rewrite IH by done. by rewrite Permutation_middle.
Qed.

(** Splitting a list by key and joining the parts gives the list back,
    when every key is listed once. *)
Lemma join_with_key (l : list A) (ks : list K) :
  NoDup ks → Forall (λ a, key a ∈ ks) l →
  mjoin (with_key key l <$> ks) ≡ₚ l.
Proof.
  intros Hnd. induction 1 as [|x l Hx _ IH].
  - unfold with_key. clear. induction ks; simpl; done.
  - rewrite <- IH at 2. rewrite <- (join_insert_key x (with_key key l) ks) by done.
    assert ((with_key key (x :: l) <$> ks)
            = ((λ k, if decide (key x = k) then x :: with_key key l k
                     else with_key key l k) <$> ks)) as ->; [|done].
    apply list_fmap_ext. intros _ k _. unfold with_key.
    rewrite filter_cons. by destruct (decide (key x = k)).
Qed.
End Partition.

Lemma mood_traces_rows (flt : list Obs) (moods : list string) :
  mjoin (trace_rows <$> mood_traces flt moods)
  = mjoin (with_key Mood flt <$> moods).
Proof.
  unfold mood_traces, with_key. induction moods as [|m moods IH]; [done|].
  rewrite fmap_cons. simpl.
  destruct (filter (λ r, Mood r = m) flt) as [|r rs] eqn:E; simpl.
  - exact IH.
  - do 2 f_equal. exact IH.
Qed.

Lemma elem_of_mood_traces (flt : list Obs) (moods : list string) (t : Trace) :
  t ∈ mood_traces flt moods ↔
  trace_name t ∈ moods ∧ trace_rows t ≠ []
  ∧ t = mk_trace (trace_name t) (get_mood_color (trace_name t))
                 (with_key Mood flt (trace_name t)).
Proof.
  unfold mood_traces, with_key. rewrite list_elem_of_omap. split.
  - intros (m & Hm & Ht).
    destruct (filter (λ r, Mood r = m) flt) as [|r rs] eqn:E; [done|].
    injection Ht as <-. simpl. by rewrite E.
  - intros (Hm & Hne & Ht). exists (trace_name t). split; [done|].
    destruct (filter (λ r, Mood r = trace_name t) flt) as [|r rs] eqn:E.
    + rewrite Ht in Hne. done.
    + by rewrite <- Ht.
Qed.

(** X9. When no mood is selected twice, the marker traces of the chart
    split the filtered view: every row of the view is in the trace of
    its mood and in no other, no trace is empty, and each trace has the
    name and the colour of its mood. *)
Theorem mood_traces_partition (df : list Obs) (fs : FilterState) :
  NoDup (mood_filter fs) →
  mjoin (trace_rows <$> mood_traces (filtered df fs) (mood_filter fs))
    ≡ₚ filtered df fs
  ∧ Forall (λ t, trace_rows t ≠ []
                 ∧ trace_name t ∈ mood_filter fs
                 ∧ trace_color t = get_mood_color (trace_name t)
                 ∧ Forall (λ r, Mood r = trace_name t) (trace_rows t))
           (mood_traces (filtered df fs) (mood_filter fs)).
Proof.
  intros Hnd. split.
  - rewrite mood_traces_rows. apply join_with_key; [done|].
    apply Forall_forall. intros r Hr.
    by apply elem_of_filtered in Hr as (_ & _ & _ & Hm).
  - apply Forall_forall. intros t (Hm & Hne & Ht)%elem_of_mood_traces.
    split_and!; [done|done|by rewrite Ht|].
    rewrite Ht. simpl. apply Forall_forall. intros r Hr.
    unfold with_key in Hr. by apply list_elem_of_filter in Hr as [Hr _].
Qed.

Lemma mood_traces_partition_witness :
  mjoin (trace_rows <$> mood_traces
           (filtered jan_df (mk_fs (mk_ts 2000 1 1) (mk_ts 2002 1 1) mood_options))
           mood_options)
  ≡ₚ filtered jan_df (mk_fs (mk_ts 2000 1 1) (mk_ts 2002 1 1) mood_options).
Proof.
  apply (mood_traces_partition jan_df
           (mk_fs (mk_ts 2000 1 1) (mk_ts 2002 1 1) mood_options)).
  simpl. unfold mood_options. compute_done.
Defined.

Lemma sum_list_perm (l k : list nat) : l ≡ₚ k → sum_list l = sum_list k.
Proof. induction 1; simpl; lia. Qed.

Lemma value_counts_perm (l : list string) :
  value_counts l
  ≡ₚ (λ v, (v, length (with_key id l v))) <$> remove_dups l.
Proof. unfold value_counts. apply merge_sort_Permutation. Qed.

#[global] Instance count_ge_total : Total count_ge.
Proof. intros a b. unfold count_ge. lia. Qed.

(** X10. The slices of the pie chart account for every row of the
    filtered view: the counts add up to the number of rows, every mood
    of the view has exactly one slice, no slice is empty, and the
    slices come largest first. *)
Theorem mood_counts_total (flt : list Obs) :
  sum_list (snd <$> mood_counts flt) = length flt
  ∧ NoDup (fst <$> mood_counts flt)
  ∧ (∀ m, m ∈ fst <$> mood_counts flt ↔ m ∈ Mood <$> flt)
  ∧ Forall (λ p, 0 < p.2) (mood_counts flt)
  ∧ Sorted count_ge (mood_counts flt).
Proof.
  unfold mood_counts. set (l := Mood <$> flt).
  pose proof (value_counts_perm l) as Hperm.
  assert (fst <$> value_counts l ≡ₚ remove_dups l) as Hfst.
  { rewrite Hperm, <- list_fmap_compose.
    rewrite <- (list_fmap_id (remove_dups l)) at 2.
    by erewrite list_fmap_ext. }
  split_and!.
  - rewrite (sum_list_perm _ _ (fmap_Permutation snd _ _ Hperm)).
    rewrite <- list_fmap_compose.
    transitivity (length (mjoin (with_key id l <$> remove_dups l))).
    + rewrite length_join, <- list_fmap_compose. by f_equal.
    + rewrite (join_with_key id l (remove_dups l)).
      * unfold l. by rewrite length_fmap.
      * apply NoDup_remove_dups.
      * apply Forall_forall. intros x Hx. by apply elem_of_remove_dups.
  - rewrite Hfst. apply NoDup_remove_dups.
  - intros m. rewrite Hfst. apply elem_of_remove_dups.
  - rewrite Hperm. rewrite Forall_fmap. apply Forall_forall.
    intros v Hv. simpl. rewrite elem_of_remove_dups in Hv.
    assert (v ∈ with_key id l v) as Hin.
    { unfold with_key. apply list_elem_of_filter. split; [reflexivity|exact Hv]. }
    destruct (with_key id l v); [by apply elem_of_nil in Hin|simpl; lia].
  - unfold value_counts. apply Sorted_merge_sort. apply _.
Qed.

End ChartSpec.

(** ** When the script runs, and the latest row *)

Module ScriptSpec.
Import FilterSpec LeastSquares TrendSpec LoaderSpec PrepareSpec.

Lemma calc_trend_is_Some (data : list Obs) (years : Z) :
  is_Some (calc_trend data years).
Proof.
  unfold calc_trend. set (recent := tail (years * 12) data).
  case_bool_decide as Hlen; [done|].
  destruct (polyfit1_full_rank (arange (length recent))
              ((Anomaly ∘ base) <$> recent)) as (m & b & -> & _); [| | |done].
  - intros E. apply (f_equal length) in E.
    rewrite length_arange in E. simpl in E. lia.
  - by rewrite length_arange, length_fmap.
  - apply spread_arange. lia.
Qed.

Lemma polyfit1_positive_is_Some (xs ys : list Q) :
  xs ≠ [] → length xs = length ys → Forall (λ x, 0 < x)%Q xs →
  is_Some (polyfit1 xs ys).
Proof.
  intros Hne Hlen Hpos. unfold polyfit1.
  rewrite bool_decide_eq_false_2 by (by destruct xs).
  rewrite bool_decide_eq_false_2 by (intros H; by apply H).
  destruct (Qeq_bool _ 0); [|done].
  destruct xs as [|x0 xs]; [done|].
  apply Forall_cons in Hpos as [Hx0 _].
  destruct (Qeq_bool x0 0) eqn:E; [|done].
  apply Qeq_bool_iff in E. rewrite E in Hx0. by apply Qlt_irrefl in Hx0.
Qed.

Lemma summary_is_Some (sqrtQ : Q → Q) (df : list Obs) :
  df ≠ [] → Forall (λ r, (0 < Year (base r))%Z) df →
  is_Some (summary sqrtQ df).
Proof.
  intros Hne Hpos. unfold summary.
  destruct (calc_trend_is_Some df 10) as [t ->]. simpl.
  assert (∀ target, is_Some (linear_prediction df target)) as Hpred.
  { intros target. unfold linear_prediction.
    destruct (polyfit1_positive_is_Some (col_Year <$> df) (col_Anomaly <$> df))
      as [p ->]; [by destruct df|by rewrite !length_fmap| |done].
    rewrite Forall_fmap. eapply Forall_impl; [exact Hpos|].
    intros r Hr. unfold col_Year; simpl.
    replace 0%Q with (inject_Z 0) by reflexivity. by rewrite <- Zlt_Qlt. }
  destruct (Hpred 2030%Q) as [p30 ->]. destruct (Hpred 2050%Q) as [p50 ->].
  done.
Qed.

Lemma prepare_sorted (df : list Row) :
  StronglySorted row_le df → StronglySorted by_date (prepare df).
Proof.
  intros Hs. rewrite <- (base_prepare df) in Hs.
  remember (prepare df) as l eqn:E. clear E.
  induction l as [|r l IH]; [constructor|].
  rewrite fmap_cons in Hs. apply StronglySorted_inv in Hs as [Hs Hall].
  constructor; [by apply IH|].
  rewrite Forall_fmap in Hall. exact Hall.
Qed.

(** In a sorted frame no row is later than the last one. *)
Lemma last_latest (l : list Obs) (x : Obs) :
  StronglySorted by_date l → last l = Some x → Forall (λ r, by_date r x) l.
Proof.
  intros Hs (l' & ->)%last_Some. apply Forall_app. split.
  - apply Forall_forall. intros r Hr.
    eapply (StronglySorted_app_1_elem_of by_date l' [x]);
      [done|done|by left].
  - constructor; [|constructor]. unfold by_date, ts_le. by right.
Qed.

Lemma long_rows_nonempty (t : RawTable) :
  long_rows t ≠ [] ↔
  ∃ row j c v, row ∈ table_rows t ∧ value_columns t !! j = Some c
               ∧ c ∈ months ∧ cell row j = Some v.
Proof.
  split.
  - intros Hne. destruct (long_rows t) as [|r l] eqn:E; [done|].
    assert (r ∈ long_rows t) as Hr by (rewrite E; left).
    apply elem_of_long_rows in Hr
      as (row & j & c & i & v & Hrow & Hc & Hi & Hv & _).
    exists row, j, c, v. split_and!; try done.
    by eapply list_elem_of_lookup_2.
  - intros (row & j & c & v & Hrow & Hc & (i & Hi)%list_elem_of_lookup_1 & Hv) E.
    assert (mk_obs (row_year row) c v
                   (mk_ts (row_year row) (Z.of_nat (S i)) 1) ∈ long_rows t) as Hin.
    { apply elem_of_long_rows. eauto 10. }
    rewrite E in Hin. by apply elem_of_nil in Hin.
Qed.

Lemma script_total (sqrtQ : Q → Q) (t : RawTable) (fs : FilterState) :
  (∃ row j c v, row ∈ table_rows t ∧ value_columns t !! j = Some c
                ∧ c ∈ months ∧ cell row j = Some v) →
  dates_in_bounds t →
  ∃ v, script sqrtQ t fs = Some v
       ∧ v_df v ≠ []
       ∧ v_latest v ∈ v_df v
       ∧ Forall (λ r, by_date r (v_latest v)) (v_df v)
       ∧ v_filtered v = filtered (v_df v) fs.
Proof.
  intros Hcell Hyears. apply long_rows_nonempty in Hcell.
  unfold script. rewrite load_nasa_data_total by done. simpl.
  set (df0 := sort_values_Date (long_rows t)).
  assert (df0 ≠ []) as Hne0.
  { intros E. apply Hcell. apply Permutation_nil_r.
    rewrite <- E. unfold df0. by rewrite sort_values_Date_perm. }
  assert (prepare df0 ≠ []) as Hne.
  { intros E. apply (f_equal length) in E. rewrite length_prepare in E.
    by destruct df0. }
  destruct (last (prepare df0)) as [latest|] eqn:Hlast;
    [|by apply last_is_Some in Hne as [? ?]; congruence].
  simpl.
  destruct (summary_is_Some sqrtQ (prepare df0)) as [s ->]; [done| |].
  { apply Forall_forall. intros r (Hr & _)%elem_of_prepare.
    unfold df0 in Hr. rewrite sort_values_Date_perm in Hr.
    apply elem_of_long_rows in Hr as (row & j & c & i & v & Hrow & Hc & Hi & Hv & ->).
    simpl. pose proof (Hyears row j c i v Hrow Hc Hi Hv) as Hb.
    unfold in_ns_bounds in Hb. lia. }
  simpl. eexists. split; [reflexivity|]. simpl. split_and!; [done| | |done].
  - by apply last_Some_elem_of.
  - apply last_latest; [|done]. apply prepare_sorted.
    apply sort_values_Date_sorted.
Qed.

(** The unpacking is the only use of the picked dates. *)
Lemma run_unpack (sqrtQ : Q → Q) (t : RawTable) (picked : list Timestamp)
    (moods : list string) :
  run sqrtQ t picked moods
  = range ← unpack_range picked;
    script sqrtQ t (mk_fs range.1 range.2 moods).
Proof.
  unfold run, script.
  destruct (unpack_range picked) as [range|]; simpl;
    destruct (load_nasa_data t) as [df0|]; simpl; try done;
    destruct (last (prepare df0)); simpl; try done;
    destruct (summary sqrtQ (prepare df0)); done.
Qed.

Lemma unpack_range_Some (picked : list Timestamp) :
  is_Some (unpack_range picked) ↔ length picked = 2.
Proof.
  destruct picked as [|s [|e [|x l]]]; simpl; split;
    first [done | by intros [? ?] | by eexists].
Qed.



Lemma month_cells_empty (t : RawTable) :
  long_rows t = [] → isin_months (dropna (melt t)) = [].
Proof. unfold long_rows. apply fmap_nil_inv. Qed.



End ScriptSpec.

(** ** The order of the rows of the table *)

Module LoaderMore.
Import FilterSpec LoaderSpec.

Lemma row_lt_asym (a b : Row) : row_lt a b → row_lt b a → a = b.
Proof.
  unfold row_lt. intros H1 H2. exfalso.
  apply (ts_lt_irrefl (Date a)). by eapply ts_lt_trans.
Qed.

Lemma keyed_by_year_perm (t1 t2 : RawTable) :
  value_columns t1 = value_columns t2 →
  table_rows t1 ≡ₚ table_rows t2 →
  keyed_by_year t1 → keyed_by_year t2.
Proof.
  intros Hc Hr [H1 H2]. split; [by rewrite <- Hr|by rewrite <- Hc].
Qed.

Lemma long_rows_sorted_strict (t : RawTable) :
  keyed_by_year t → StronglySorted row_lt (sort_values_Date (long_rows t)).
Proof.
  intros Hk. apply StronglySorted_strict; [apply sort_values_Date_sorted|].
  rewrite sort_values_Date_perm. by apply NoDup_long_dates.
Qed.

Lemma sorted_long_rows_perm (t1 t2 : RawTable) :
  keyed_by_year t1 →
  value_columns t1 = value_columns t2 →
  table_rows t1 ≡ₚ table_rows t2 →
  sort_values_Date (long_rows t1) = sort_values_Date (long_rows t2).
Proof.
  intros Hk1 Hc Hr.
  pose proof (keyed_by_year_perm t1 t2 Hc Hr Hk1) as Hk2.
  apply (StronglySorted_unique_strong row_lt).
  - intros a b _ _. apply row_lt_asym.
  - by apply long_rows_sorted_strict.
  - by apply long_rows_sorted_strict.
  - rewrite !sort_values_Date_perm. apply NoDup_Permutation.
    + eapply NoDup_fmap_1. by apply NoDup_long_dates.
    + eapply NoDup_fmap_1. by apply NoDup_long_dates.
    + intros r. rewrite !elem_of_long_rows. rewrite Hc.
      split; intros (row & j & c & i & v & Hrow & H);
        exists row, j, c, i, v; (split; [|exact H]).
      * by rewrite <- Hr.
      * by rewrite Hr.
Qed.

(** The cells that reach [with_date]. *)
Lemma elem_of_month_cells (t : RawTable) (x : Z * string * Q) :
  x ∈ isin_months (dropna (melt t)) ↔
  ∃ row j c v, row ∈ table_rows t ∧ value_columns t !! j = Some c
               ∧ is_Some (month_map !! c) ∧ cell row j = Some v
               ∧ x = (row_year row, c, v).
Proof.
  unfold isin_months, dropna. rewrite list_elem_of_filter. split.
  - intros [Hm (y & Hy & Hyx)%list_elem_of_omap].
    apply elem_of_melt in Hy as (row & j & c & Hrow & Hc & ->).
    simpl in Hyx. destruct (cell row j) as [v|] eqn:Hv; [|done].
    injection Hyx as <-. simpl in Hm. eauto 10.
  - intros (row & j & c & v & Hrow & Hc & Hm & Hv & ->). split; [done|].
    apply list_elem_of_omap. exists (row_year row, c, cell row j).
    split; [apply elem_of_melt; eauto 10|]. simpl. by rewrite Hv.
Qed.

Lemma load_is_Some (t : RawTable) :
  is_Some (load_nasa_data t) ↔
  ∀ x, x ∈ isin_months (dropna (melt t)) → is_Some (with_date x).
Proof.
  unfold load_nasa_data. rewrite fmap_is_Some, mapM_is_Some, Forall_forall.
  done.
Qed.

Lemma load_is_Some_perm (t1 t2 : RawTable) :
  value_columns t1 = value_columns t2 →
  table_rows t1 ≡ₚ table_rows t2 →
  is_Some (load_nasa_data t1) → is_Some (load_nasa_data t2).
Proof.
  intros Hc Hr. rewrite !load_is_Some. intros H x Hx. apply H.
  apply elem_of_month_cells in Hx as (row & j & c & v & Hrow & Hcol & Hrest).
  apply elem_of_month_cells. exists row, j, c, v.
  split; [by rewrite Hr|]. split; [by rewrite Hc|exact Hrest].
Qed.



End LoaderMore.

(** ** Data that lie on a line *)

Module TrendMore.
Import LeastSquares TrendSpec.
Local Open Scope Q_scope.

Lemma sse_nonneg (xs ys : list Q) (m b : Q) : 0 <= sse xs ys m b.
Proof.
  unfold sse. apply Qsum_nonneg. revert ys.
  induction xs as [|x xs IH]; intros [|y ys]; simpl; constructor; auto.
  generalize (residual m b x y). intros q. nra.
Qed.

Lemma sse_on_line (xs ys : list Q) (α β : Q) :
  Forall2 (λ x y, y == α * x + β) xs ys → sse xs ys α β == 0.
Proof.
  unfold sse. induction 1 as [|x y xs ys Hxy _ IH]; simpl; [reflexivity|].
  rewrite IH. unfold residual. rewrite Hxy. ring.
Qed.

(** When the points lie on a line and have two distinct abscissae,
    [polyfit1] returns that line. *)
Lemma polyfit1_on_line (xs ys : list Q) (α β : Q) :
  ¬ spread xs == 0 →
  Forall2 (λ x y, y == α * x + β) xs ys →
  ∃ m b, polyfit1 xs ys = Some (m, b) ∧ m == α ∧ b == β.
Proof.
  intros Hd Hline.
  assert (length xs = length ys) as Hlen by (by eapply Forall2_length).
  assert (xs ≠ []) as Hne.
  { intros ->. apply Hd. unfold spread, Qnat. simpl. ring. }
  destruct (polyfit1_full_rank xs ys Hne Hlen Hd) as (m & b & Hp & _).
  exists m, b. split; [done|].
  assert (least_squares_line xs ys α β) as Hmin.
  { intros m' b'. rewrite (sse_on_line xs ys α β Hline). apply sse_nonneg. }
  destruct (least_squares_unique xs ys m b α β Hne Hlen Hd Hp Hmin) as [E1 E2].
  split; by symmetry.
Qed.

(** X14. When the anomalies are a linear function of the year and the
    frame has rows of two different years, the prediction for any
    target year is the value of that function at the target. *)
Theorem linear_prediction_on_line (df : list Obs) (α β target : Q) :
  (∃ r1 r2, r1 ∈ df ∧ r2 ∈ df ∧ Year (base r1) ≠ Year (base r2)) →
  Forall (λ r, col_Anomaly r == α * col_Year r + β) df →
  ∃ v, linear_prediction df target = Some v ∧ v == α * target + β.
Proof.
  intros (r1 & r2 & H1 & H2 & Hne) Hline.
  destruct (polyfit1_on_line (col_Year <$> df) (col_Anomaly <$> df) α β)
    as (m & b & Hp & Hm & Hb).
  - intros Hd. apply Hne.
    assert (col_Year r1 == col_Year r2) as E.
    { apply (spread_zero_eq (col_Year <$> df)); [done| |];
        apply list_elem_of_fmap; eauto. }
    unfold col_Year, Qeq in E. simpl in E. lia.
  - apply Forall2_fmap. clear H1 H2.
    induction Hline; constructor; auto.
  - unfold linear_prediction. rewrite Hp. simpl.
    eexists. split; [reflexivity|]. unfold polyval1; simpl.
    by rewrite Hm, Hb.
Qed.

Lemma linear_prediction_on_line_witness :
  ∃ v, linear_prediction jan_df 2030 = Some v
       ∧ v == (1#10) * 2030 + (-1999#10).
Proof.
  apply (linear_prediction_on_line jan_df (1#10) (-1999#10) 2030).
  - eexists _, _. split_and!; [left|right; left|]. simpl. lia.
  - repeat constructor.
Defined.

(** X15. When the anomalies of the last 120 rows rise or fall by a
    fixed amount per month, the trend metric of [calc_trend(df, 10)] is
    twelve times that amount, in exact arithmetic. *)
Theorem calc_trend_on_line (data : list Obs) (α β : Q) :
  (2 ≤ length (drop (length data - 120) data))%nat →
  (∀ i r, drop (length data - 120) data !! i = Some r →
          col_Anomaly r == α * Qnat i + β) →
  ∃ v, calc_trend data 10 = Some v ∧ v == α * 12.
Proof.
  set (recent := drop (length data - 120) data).
  intros Hlen Hline. unfold calc_trend.
  change (10 * 12)%Z with 120%Z.
  rewrite (tail_nonneg 120 data) by lia.
  change (Z.to_nat 120) with 120%nat. fold recent.
  rewrite bool_decide_eq_false_2 by lia.
  destruct (polyfit1_on_line (arange (length recent))
              ((Anomaly ∘ base) <$> recent) α β) as (m & b & Hp & Hm & _).
  - apply spread_arange. exact Hlen.
  - apply Forall2_same_length_lookup_2.
    + by rewrite length_arange, length_fmap.
    + intros i x y Hx Hy. unfold arange in Hx.
      rewrite list_lookup_fmap in Hx. rewrite list_lookup_fmap in Hy.
      destruct (recent !! i) as [r|] eqn:Hr; [|done].
      injection Hy as <-.
      destruct (seq 0 (length recent) !! i) as [k|] eqn:Hk; [|done].
      injection Hx as <-. apply lookup_seq in Hk as [-> _].
      by apply Hline.
  - rewrite Hp. simpl. eexists. split; [reflexivity|]. by rewrite Hm.
Qed.

Lemma calc_trend_on_line_witness :
  ∃ v, calc_trend jan_df 10 = Some v ∧ v == (1#10) * 12.
Proof.
  apply (calc_trend_on_line jan_df (1#10) (1#10)).
  - simpl. lia.
  - intros i r Hi. simpl in Hi.
    destruct i as [|[|[|i]]]; simpl in Hi; [| | |done];
      injection Hi as <-; reflexivity.
Defined.

(** X16. Too little data is captioned "Cooling": with fewer than two
    rows [calc_trend(df, 10)] returns 0 without fitting anything, and
    the caption under the metric, which asks whether the trend is above
    0, is "Cooling". *)
Theorem trend_flat_cooling (data : list Obs) :
  (length data < 2)%nat →
  calc_trend data 10 = Some 0
  ∧ ∀ v, calc_trend data 10 = Some v → trend_caption v = "Cooling".
Proof.
  intros Hshort.
  assert (calc_trend data 10 = Some 0) as E.
  { unfold calc_trend. change (10 * 12)%Z with 120%Z.
    rewrite (tail_nonneg 120 data) by lia.
    change (Z.to_nat 120) with 120%nat.
    rewrite bool_decide_eq_true_2; [done|]. rewrite length_drop. lia. }
  split; [done|]. intros v Hv. rewrite E in Hv. by injection Hv as <-.
Qed.

Lemma trend_flat_cooling_witness :
  calc_trend (take 1 jan_df) 10 = Some 0
  ∧ ∀ v, calc_trend (take 1 jan_df) 10 = Some v → trend_caption v = "Cooling".
Proof.
  apply (trend_flat_cooling (take 1 jan_df)). simpl. lia.
Defined.

End TrendMore.

(** ** The correlation *)

Module CorrSpec.
Import LeastSquares TrendSpec.
Local Open Scope Q_scope.

Lemma Qsum_squares_const (xs : list Q) (c : Q) :
  Forall (λ x, x == c) xs →
  Qsum (zip_with Qmult xs xs) == Qnat (length xs) * (c * c).
Proof.
  induction 1 as [|x xs Hx _ IH]; simpl; [unfold Qnat; simpl; ring|].
  rewrite IH, Hx, Qnat_S. ring.
Qed.

(** A column has no spread exactly when all its values are equal. *)
Lemma spread_zero_iff (xs : list Q) :
  spread xs == 0 ↔ ∀ a b, a ∈ xs → b ∈ xs → a == b.
Proof.
  split; [intros H a b; by apply spread_zero_eq|].
  intros Heq. destruct xs as [|c xs'] eqn:E.
  { unfold spread, Qnat. simpl. ring. }
  rewrite <- E in *.
  assert (Forall (λ x, x == c) xs) as Hc.
  { apply Forall_forall. intros x Hx. apply Heq; [done|]. rewrite E. left. }
  unfold spread. rewrite (Qsum_squares_const xs c Hc), (Qsum_const xs c Hc).
  ring.
Qed.

Lemma corr_None (sqrtQ : Q → Q) (xs ys : list Q) :
  length xs = length ys →
  corr sqrtQ xs ys = None ↔ spread xs == 0 ∨ spread ys == 0.
Proof.
  intros Hlen. unfold corr, spread. rewrite <- Hlen.
  destruct (Qeq_bool _ 0) eqn:E.
  - apply Qeq_bool_iff in E. split; [intros _|done].
    apply Qmult_integral in E. exact E.
  - split; [done|]. intros [H|H]; exfalso;
      apply Qeq_bool_neq in E; apply E; rewrite H; ring.
Qed.


Lemma sums_on_line (xs ys : list Q) (α β : Q) :
  Forall2 (λ x y, y == α * x + β) xs ys →
  Qsum ys == α * Qsum xs + Qnat (length xs) * β
  ∧ Qsum (zip_with Qmult xs ys)
    == α * Qsum (zip_with Qmult xs xs) + β * Qsum xs
  ∧ Qsum (zip_with Qmult ys ys)
    == α * α * Qsum (zip_with Qmult xs xs) + 2 * α * β * Qsum xs
       + Qnat (length xs) * (β * β).
Proof.
  induction 1 as [|x y xs ys Hxy _ (IH1 & IH2 & IH3)]; simpl.
  - unfold Qnat; simpl. split_and!; ring.
  - rewrite IH1, IH2, IH3, Hxy, Qnat_S. split_and!; ring.
Qed.

(** X19. When the anomalies rise with the year along a line and the
    frame has rows of two different years, the correlation metric is 1
    wherever the square root is right. *)
Theorem corr_on_rising_line (sqrtQ : Q → Q) (df : list Obs) (α β : Q) :
  0 < α →
  (∃ r1 r2, r1 ∈ df ∧ r2 ∈ df ∧ Year (base r1) ≠ Year (base r2)) →
  Forall (λ r, col_Anomaly r == α * col_Year r + β) df →
  sqrt_at sqrtQ (corr_radicand (col_Year <$> df) (col_Anomaly <$> df)) →
  ∃ c, corr sqrtQ (col_Year <$> df) (col_Anomaly <$> df) = Some c ∧ c == 1.
Proof.
  intros Hα (r1 & r2 & H1 & H2 & Hne) Hline [Hs0 Hs2].
  assert (Forall2 (λ x y, y == α * x + β)
                  (col_Year <$> df) (col_Anomaly <$> df)) as Hl2.
  { apply Forall2_fmap. clear -Hline.
    induction Hline; constructor; auto. }
  set (xs := col_Year <$> df) in *. set (ys := col_Anomaly <$> df) in *.
  destruct (sums_on_line xs ys α β Hl2) as (E1 & E2 & E3).
  assert (0 < spread xs) as Hvx.
  { pose proof (spread_nonneg xs).
    destruct (Qlt_le_dec 0 (spread xs)) as [|Hle]; [done|].
    exfalso. apply Hne.
    assert (col_Year r1 == col_Year r2) as E.
    { apply (spread_zero_eq xs); [lra| |]; apply list_elem_of_fmap; eauto. }
    unfold col_Year, Qeq in E. simpl in E. lia. }
  assert (corr_radicand xs ys == (α * spread xs) * (α * spread xs)) as Hq.
  { unfold corr_radicand, spread. rewrite E1, E3. ring. }
  assert (sqrtQ (corr_radicand xs ys) == α * spread xs) as Hs.
  { assert (sqrtQ (corr_radicand xs ys) * sqrtQ (corr_radicand xs ys)
            == (α * spread xs) * (α * spread xs)) as Hs2'
      by (etransitivity; [exact Hs2|exact Hq]).
    clear Hs2 Hq. revert Hs0 Hs2' Hvx.
    generalize (sqrtQ (corr_radicand xs ys)), (spread xs).
    intros s v Hs0 Hs2 Hv.
    assert (0 < α * v) as Hav by nra.
    assert ((s - α * v) * (s + α * v) == 0) as Hz by (ring_simplify; lra).
    apply Qmult_integral in Hz as [Hz|Hz]; lra. }
  unfold corr. fold (corr_radicand xs ys).
  destruct (Qeq_bool (corr_radicand xs ys) 0) eqn:E.
  { apply Qeq_bool_iff in E. rewrite Hq in E.
    assert (0 < α * spread xs) as Hav by nra. exfalso.
    apply Qmult_integral in E as [E|E]; lra. }
  eexists. split; [reflexivity|].
  rewrite Hs, E1, E2. unfold spread in *. field.
  split; [|lra].
  intros Hz. lra.
Qed.

Lemma corr_on_rising_line_witness :
  ∃ c, corr (λ _, 6#10) (col_Year <$> jan_df) (col_Anomaly <$> jan_df) = Some c
       ∧ c == 1.
Proof.
  apply (corr_on_rising_line (λ _, 6#10) jan_df (1#10) (-1999#10)).
  - reflexivity.
  - eexists _, _. split_and!; [left|right; left|]. simpl. lia.
  - repeat constructor.
  - split; vm_compute; [discriminate|reflexivity].
Defined.

End CorrSpec.

(** ** The comparison of two years *)

Module CompareSpec.
Import LeastSquares.
Local Open Scope Q_scope.

Lemma year_mean_Some (df : list Obs) (year : Z) :
  year ∈ (Year ∘ base) <$> df →
  year_mean df year
  = Some (Qsum (col_Anomaly <$> filter (λ r, Year (base r) = year) df)
          / Qnat (length (col_Anomaly <$> filter (λ r, Year (base r) = year) df)))
  ∧ filter (λ r, Year (base r) = year) df ≠ [].
Proof.
  intros (r & Hy & Hr)%list_elem_of_fmap. simpl in Hy.
  assert (r ∈ filter (λ r, Year (base r) = year) df) as Hin
    by (by apply list_elem_of_filter).
  unfold year_mean, series_mean.
  destruct (filter (λ r, Year (base r) = year) df) as [|r0 l];
    [by apply elem_of_nil in Hin|done].
Qed.

Lemma compare_years_Some (df : list Obs) (y1 y2 : Z) :
  y1 ∈ (Year ∘ base) <$> df → y2 ∈ (Year ∘ base) <$> df →
  ∃ a1 a2, year_mean df y1 = Some a1 ∧ year_mean df y2 = Some a2
           ∧ compare_years df y1 y2 = Some (a1, a2, a2 - a1).
Proof.
  intros H1 H2.
  destruct (year_mean_Some df y1 H1) as [E1 _].
  destruct (year_mean_Some df y2 H2) as [E2 _].
  eexists _, _. split_and!; [exact E1|exact E2|].
  unfold compare_years. rewrite decide_True by done.
  rewrite E1, E2. done.
Qed.


End CompareSpec.

(** ** The overlay of the histogram *)

Module DensitySpec.
Import LeastSquares.
Local Open Scope Q_scope.

#[global] Instance Qle_total_inst : Total Qle.
Proof.
  intros x y. destruct (Qlt_le_dec x y) as [H|H]; [left|right]; [|done].
  by apply Qlt_le_weak.
Qed.

Lemma length_linspace (start stop : Q) (num : nat) :
  length (linspace start stop num) = num.
Proof.
  unfold linspace. destruct num as [|[|n]]; [done|done|].
  by rewrite length_fmap, length_seq.
Qed.

Lemma head_linspace (start stop : Q) (num : nat) :
  (0 < num)%nat →
  ∃ v, head (linspace start stop num) = Some v ∧ v == start.
Proof.
  intros Hn. unfold linspace. destruct num as [|[|n]]; [lia| |].
  - exists start. split; reflexivity.
  - simpl. eexists. split; [reflexivity|].
    change (Qnat 0) with (0#1). ring.
Qed.

Lemma last_linspace (start stop : Q) (num : nat) :
  (2 ≤ num)%nat → last (linspace start stop num) = Some stop.
Proof.
  intros Hn. unfold linspace. destruct num as [|[|n]]; [lia|lia|].
  rewrite fmap_last, seq_S, last_snoc. simpl.
  rewrite decide_True by lia. done.
Qed.

Lemma seq_sorted (a n : nat) :
  StronglySorted (λ i j, (i < j ∧ j < a + n)%nat) (seq a n).
Proof.
  revert a. induction n as [|n IH]; intros a; simpl; constructor.
  - eapply (StronglySorted_fmap id) in IH; [rewrite list_fmap_id in IH; exact IH|].
    intros i j [H1 H2]. simpl. split; lia.
  - apply Forall_forall. intros j Hj. apply elem_of_seq in Hj. lia.
Qed.

Lemma Qnat_le (i j : nat) : (i ≤ j)%nat → Qnat i <= Qnat j.
Proof. intros H. unfold Qnat. rewrite <- Zle_Qle. lia. Qed.

(** From 0 to a stop that is not negative, [linspace] does not fall. *)
Lemma linspace_sorted (stop : Q) (num : nat) :
  0 <= stop → StronglySorted Qle (linspace 0 stop num).
Proof.
  intros Hstop. unfold linspace.
  destruct num as [|[|n]]; [constructor|repeat constructor|].
  set (num := S (S n)).
  assert (0 < Qnat (num - 1)) as Hd by (apply Qnat_pos; unfold num; lia).
  set (step := (stop - 0) / Qnat (num - 1)).
  assert (0 <= step) as Hstep.
  { unfold step. apply Qle_shift_div_l; [done|]. lra. }
  assert (Qnat (num - 1) * step == stop) as Hfull.
  { unfold step. field. lra. }
  eapply StronglySorted_fmap; [|apply (seq_sorted 0 num)].
  intros i j [Hij Hj]. simpl in Hj.
  rewrite decide_False by lia.
  pose proof (Qnat_le i j ltac:(lia)) as Hq.
  destruct (decide (j = (num - 1)%nat)) as [->|Hne].
  - rewrite <- Hfull. nra.
  - nra.
Qed.

(** X22. The overlay of the histogram is well formed: it has one height
    per anomaly of the filtered view, the anomalies are the view's own
    in ascending order, and the heights start at 0, do not fall, and
    (with two rows or more) end at the number of rows divided by 5.5. *)
Theorem density_overlay (flt : list Obs) :
  length (y_density flt) = length (x_sorted flt)
  ∧ length (x_sorted flt) = length flt
  ∧ x_sorted flt ≡ₚ col_Anomaly <$> flt
  ∧ Sorted Qle (x_sorted flt)
  ∧ (flt ≠ [] → ∃ v, head (y_density flt) = Some v ∧ v == 0)
  ∧ ((2 ≤ length flt)%nat →
     last (y_density flt) = Some (Qnat (length flt) / (55#10)))
  ∧ StronglySorted Qle (y_density flt).
Proof.
  assert (x_sorted flt ≡ₚ col_Anomaly <$> flt) as Hperm
    by apply merge_sort_Permutation.
  assert (length (x_sorted flt) = length flt) as Hlen
    by (by rewrite Hperm, length_fmap).
  split_and!.
  - unfold y_density. apply length_linspace.
  - exact Hlen.
  - exact Hperm.
  - unfold x_sorted. apply Sorted_merge_sort. apply _.
  - intros Hne. unfold y_density. rewrite Hlen.
    apply head_linspace. destruct flt; [done|simpl; lia].
  - intros Hn. unfold y_density. rewrite Hlen. by apply last_linspace.
  - unfold y_density. apply linspace_sorted.
    apply Qle_shift_div_l; [reflexivity|].
    assert (0 <= Qnat (length flt)) by (apply (Qnat_le 0); lia). lra.
Qed.

End DensitySpec.
